(** * Connect 4 decision engine (Connect4ai.py): board model, heuristic
      evaluator and minimax search with alpha-beta pruning.

    The board is the 6x7 numpy integer array of the program, kept as a list
    of rows (row 0 is the top row, row 5 the bottom one).  Cells are
    integers: 0 is EMPTY, 1 is PLAYER, 2 is AI. *)

From Stdlib Require Import List ZArith Lia Bool Arith Permutation.
From Stdlib Require Import Orders OrdersTac Sorted QArith Ascii.
From Stdlib Require String.
Import ListNotations.
Local Open Scope Z_scope.

(* ------------------------------------------------------------------ *)
(** ** Game constants *)

Definition ROWS : nat := 6.
Definition COLS : nat := 7.
Definition EMPTY : Z := 0.
Definition PLAYER : Z := 1.
Definition AI : Z := 2.

(** [range n] is Python's [range(n)]. *)
Definition range (n : nat) : list nat := seq 0 n.

(* ------------------------------------------------------------------ *)
(** ** Outcomes of a call

    A Python call returns a value or raises.  [OutOfFuel] is the outcome of
    the fuel-bounded recursion when the bound is reached; the theorems below
    show that the bound used by [minimax] is never reached. *)

Inductive exn : Type :=
| IndexError
| TypeError.

Inductive result (A : Type) : Type :=
| Ok (a : A)
| Raise (e : exn)
| OutOfFuel.

Arguments Ok {A} a.
Arguments Raise {A} e.
Arguments OutOfFuel {A}.

(* ------------------------------------------------------------------ *)
(** ** Board logic *)

Definition board : Type := list (list Z).

(** [board[r][c]].  Every read of the program uses loop indices inside the
    6x7 array, so the default is never returned on a well-shaped board. *)
Definition cell (b : board) (r c : nat) : Z := nth c (nth r b []) 0.

(** Shape of a numpy array of [ROWS] x [COLS]. *)
Definition wf_board (b : board) : Prop :=
  length b = ROWS /\ Forall (fun row => length row = COLS) b.

Definition wf_boardb (b : board) : bool :=
  (length b =? ROWS)%nat && forallb (fun row => (length row =? COLS)%nat) b.

Fixpoint set_nth {A : Type} (i : nat) (x : A) (l : list A) : list A :=
  match l, i with
  | [], _ => []
  | _ :: t, O => x :: t
  | h :: t, S j => h :: set_nth j x t
  end.

(** [b[r][c] = v] on the fresh copy. *)
Definition set_cell (b : board) (r c : nat) (v : Z) : board :=
  set_nth r (set_nth c v (nth r b [])) b.

Definition create_board : board := repeat (repeat 0 COLS) ROWS.

Definition get_valid_columns (b : board) : list nat :=
  filter (fun c => cell b 0 c =? EMPTY) (range COLS).

(** The scan [for r in range(ROWS - 1, -1, -1)] of [drop_piece], over the
    rows still to visit. *)
Fixpoint drop_scan (b : board) (col : nat) (piece : Z) (rows : list nat)
  : option board :=
  match rows with
  | [] => None
  | r :: rest =>
      if cell b r col =? EMPTY then Some (set_cell b r col piece)
      else drop_scan b col piece rest
  end.

(** [drop_piece]: the new board, [None] when the column is full.  Columns
    are natural numbers, as the callers pass them (an element of
    [get_valid_columns], or the player's input checked against it); a column
    index past the last column makes numpy raise [IndexError] at the first
    read [b[r][col]]. *)
Definition drop_piece (b : board) (col : nat) (piece : Z)
  : result (option board) :=
  if (COLS <=? col)%nat then Raise IndexError
  else Ok (drop_scan b col piece (rev (range ROWS))).

Definition all4 (f : nat -> bool) : bool := forallb f (range 4).

(** [check_win]: the four tests at every origin, in the order of the code;
    [c - 3 >= 0] is [3 <= c] on natural numbers. *)
Definition check_win (b : board) (piece : Z) : bool :=
  existsb (fun r =>
    existsb (fun c =>
      ((c + 3 <? COLS)%nat && all4 (fun i => cell b r (c + i) =? piece))
      || ((r + 3 <? ROWS)%nat && all4 (fun i => cell b (r + i) c =? piece))
      || ((r + 3 <? ROWS)%nat && (c + 3 <? COLS)%nat
          && all4 (fun i => cell b (r + i) (c + i) =? piece))
      || ((r + 3 <? ROWS)%nat && (3 <=? c)%nat
          && all4 (fun i => cell b (r + i) (c - i) =? piece)))
      (range COLS))
    (range ROWS).

Definition is_terminal (b : board) : bool :=
  check_win b PLAYER || check_win b AI
  || (length (get_valid_columns b) =? 0)%nat.

(* ------------------------------------------------------------------ *)
(** ** Heuristic evaluation *)

Definition count (x : Z) (l : list Z) : nat :=
  length (filter (fun y => y =? x) l).

Definition score_window (window : list Z) (piece : Z) : Z :=
  let opp := if piece =? AI then PLAYER else AI in
  let p := count piece window in
  let e := count EMPTY window in
  let o := count opp window in
  if (p =? 4)%nat then 100
  else if (p =? 3)%nat && (e =? 1)%nat then 5
  else if (p =? 2)%nat && (e =? 2)%nat then 2
  else if (o =? 3)%nat && (e =? 1)%nat then -4
  else 0.

(** A [for] loop that only does [score += f x]. *)
Definition add_over {A : Type} (l : list A) (f : A -> Z) (score : Z) : Z :=
  fold_left (fun s x => s + f x) l score.

Definition score_position (b : board) (piece : Z) : Z :=
  let score := 0 in
  (* center column bonus *)
  let center_col := map (fun r => cell b r (COLS / 2)) (range ROWS) in
  let score := score + Z.of_nat (count piece center_col) * 3 in
  (* horizontal windows *)
  let score :=
    fold_left (fun s r =>
      add_over (range (COLS - 3))
        (fun c => score_window (map (fun i => cell b r (c + i)%nat) (range 4)) piece) s)
      (range ROWS) score in
  (* vertical windows *)
  let score :=
    fold_left (fun s c =>
      add_over (range (ROWS - 3))
        (fun r => score_window (map (fun i => cell b (r + i)%nat c) (range 4)) piece) s)
      (range COLS) score in
  (* diagonal, down-right *)
  let score :=
    fold_left (fun s r =>
      add_over (range (COLS - 3))
        (fun c => score_window (map (fun i => cell b (r + i)%nat (c + i)%nat) (range 4)) piece) s)
      (range (ROWS - 3)) score in
  (* diagonal, down-left *)
  let score :=
    fold_left (fun s r =>
      add_over (seq 3 (COLS - 3))
        (fun c => score_window (map (fun i => cell b (r + i)%nat (c - i)%nat) (range 4)) piece) s)
      (range (ROWS - 3)) score in
  score.

(* ------------------------------------------------------------------ *)
(** ** Scores of the search: integers and the two infinities of numpy *)

Inductive ext : Type :=
| NegInf
| Fin (z : Z)
| PosInf.

Definition ext_ltb (a b : ext) : bool :=
  match a, b with
  | NegInf, NegInf => false
  | NegInf, _ => true
  | Fin _, NegInf => false
  | Fin x, Fin y => x <? y
  | Fin _, PosInf => true
  | PosInf, _ => false
  end.

Definition ext_gtb (a b : ext) : bool := ext_ltb b a.
Definition ext_geb (a b : ext) : bool := negb (ext_ltb a b).

(** Python's [max(a, b)] and [min(a, b)]: the first argument unless the
    second is strictly better. *)
Definition ext_max (a b : ext) : ext := if ext_gtb b a then b else a.
Definition ext_min (a b : ext) : ext := if ext_ltb b a then b else a.

Definition ext_lt (a b : ext) : Prop :=
  match a, b with
  | NegInf, NegInf => False
  | NegInf, _ => True
  | Fin _, NegInf => False
  | Fin x, Fin y => x < y
  | Fin _, PosInf => True
  | PosInf, _ => False
  end.

Definition ext_le (a b : ext) : Prop :=
  match a, b with
  | NegInf, _ => True
  | Fin _, NegInf => False
  | Fin x, Fin y => x <= y
  | Fin _, PosInf => True
  | PosInf, PosInf => True
  | PosInf, _ => False
  end.

Definition is_fin (v : ext) : Prop := exists z, v = Fin z.

(** Number of EMPTY cells of the array: every ply of the search fills one,
    so it bounds the depth of the recursion. *)
Definition count_empty (b : board) : nat := count EMPTY (concat b).

(* ------------------------------------------------------------------ *)
(** ** Minimax with alpha-beta pruning

    The state of Python's [random] module is threaded through the calls:
    [random_choice rs l] is [random.choice(l)] on a non-empty list, with the
    state that follows. *)

Section Search.

Variable RandomState : Type.
Variable random_choice : RandomState -> list nat -> nat * RandomState.

Definition answer : Type := (option nat * ext * RandomState)%type.

(** [new_board = drop_piece(board, col, piece)] followed by
    [_, score = minimax(new_board, ...)], the recursive call being [search].
    [minimax(None, ...)] raises [TypeError] in [get_valid_columns]. *)
Definition child_score
    (search : board -> ext -> ext -> RandomState -> result answer)
    (b : board) (piece : Z) (col : nat) (alpha beta : ext) (rs : RandomState)
  : result (ext * RandomState) :=
  match drop_piece b col piece with
  | Ok (Some new_board) =>
      match search new_board alpha beta rs with
      | Ok (_, score, rs') => Ok (score, rs')
      | Raise e => Raise e
      | OutOfFuel => OutOfFuel
      end
  | Ok None => Raise TypeError
  | Raise e => Raise e
  | OutOfFuel => OutOfFuel
  end.

(** The loop of the maximizing branch, over the columns still to visit. *)
Fixpoint max_loop
    (child : nat -> ext -> ext -> RandomState -> result (ext * RandomState))
    (cols : list nat) (value : ext) (best_col : option nat)
    (alpha beta : ext) (rs : RandomState) : result answer :=
  match cols with
  | [] => Ok (best_col, value, rs)
  | col :: rest =>
      match child col alpha beta rs with
      | Ok (score, rs1) =>
          let improved := ext_gtb score value in
          let value := if improved then score else value in
          let best_col := if improved then Some col else best_col in
          let alpha := ext_max alpha value in
          if ext_geb alpha beta then Ok (best_col, value, rs1)
          else max_loop child rest value best_col alpha beta rs1
      | Raise e => Raise e
      | OutOfFuel => OutOfFuel
      end
  end.

(** The loop of the minimizing branch. *)
Fixpoint min_loop
    (child : nat -> ext -> ext -> RandomState -> result (ext * RandomState))
    (cols : list nat) (value : ext) (best_col : option nat)
    (alpha beta : ext) (rs : RandomState) : result answer :=
  match cols with
  | [] => Ok (best_col, value, rs)
  | col :: rest =>
      match child col alpha beta rs with
      | Ok (score, rs1) =>
          let improved := ext_ltb score value in
          let value := if improved then score else value in
          let best_col := if improved then Some col else best_col in
          let beta := ext_min beta value in
          if ext_geb alpha beta then Ok (best_col, value, rs1)
          else min_loop child rest value best_col alpha beta rs1
      | Raise e => Raise e
      | OutOfFuel => OutOfFuel
      end
  end.

Fixpoint minimax_fuel (fuel : nat) (b : board) (depth : Z) (alpha beta : ext)
    (is_maximizing : bool) (rs : RandomState) : result answer :=
  match fuel with
  | O => OutOfFuel
  | S fuel' =>
      let valid_cols := get_valid_columns b in
      let terminal := is_terminal b in
      if (depth =? 0) || terminal then
        if terminal then
          if check_win b AI then Ok (None, Fin 100000, rs)
          else if check_win b PLAYER then Ok (None, Fin (-100000), rs)
          else Ok (None, Fin 0, rs)
        else Ok (None, Fin (score_position b AI), rs)
      else
        match valid_cols with
        | [] => Raise IndexError (* random.choice of an empty list *)
        | _ :: _ =>
            let pick := random_choice rs valid_cols in
            if is_maximizing then
              max_loop
                (child_score
                   (fun nb a bt r => minimax_fuel fuel' nb (depth - 1) a bt false r)
                   b AI)
                valid_cols NegInf (Some (fst pick)) alpha beta (snd pick)
            else
              min_loop
                (child_score
                   (fun nb a bt r => minimax_fuel fuel' nb (depth - 1) a bt true r)
                   b PLAYER)
                valid_cols PosInf (Some (fst pick)) alpha beta (snd pick)
        end
  end.

(** [minimax]: the recursion runs on a bound one above the number of EMPTY
    cells, which it never reaches on a 6x7 board. *)
Definition minimax (b : board) (depth : Z) (alpha beta : ext)
    (is_maximizing : bool) (rs : RandomState) : result answer :=
  minimax_fuel (S (count_empty b)) b depth alpha beta is_maximizing rs.

(** [ai_move], without the elapsed time. *)
Definition ai_move (b : board) (depth : Z) (rs : RandomState) : result answer :=
  minimax b depth NegInf PosInf true rs.

End Search.

Arguments child_score {RandomState} search b piece col alpha beta rs.
Arguments max_loop {RandomState} child cols value best_col alpha beta rs.
Arguments min_loop {RandomState} child cols value best_col alpha beta rs.
Arguments minimax_fuel {RandomState} random_choice fuel b depth alpha beta is_maximizing rs.
Arguments minimax {RandomState} random_choice b depth alpha beta is_maximizing rs.
Arguments ai_move {RandomState} random_choice b depth rs.

(** What a caller sees of an answer: the column and the value. *)
Definition outcome {S : Type} (r : result (option nat * ext * S))
  : result (option nat * ext) :=
  match r with
  | Ok (c, v, _) => Ok (c, v)
  | Raise e => Raise e
  | OutOfFuel => OutOfFuel
  end.

(** A concrete random source, for running the search: the state is a
    counter and the draw is the element at that position, modulo the length. *)
Definition counter_choice (rs : nat) (l : list nat) : nat * nat :=
  (nth (rs mod length l) l O, S rs).

(* ------------------------------------------------------------------ *)
(** ** Exhaustive minimax, the reference of the pruning property

    The same search with no bounds and no pruning: every legal column of
    every node is evaluated, and a node's value is the maximum (Engine to
    move) or the minimum (opponent to move) of its children's values. *)

Definition leaf_value (b : board) : Z :=
  if is_terminal b then
    if check_win b AI then 100000
    else if check_win b PLAYER then -100000
    else 0
  else score_position b AI.

Fixpoint best_of (better : ext -> ext -> ext) (child : nat -> option ext)
    (cols : list nat) (value : ext) : option ext :=
  match cols with
  | [] => Some value
  | col :: rest =>
      match child col with
      | Some s => best_of better child rest (better value s)
      | None => None
      end
  end.

Definition exhaustive_child (search : board -> option ext)
    (b : board) (piece : Z) (col : nat) : option ext :=
  match drop_piece b col piece with
  | Ok (Some nb) => search nb
  | _ => None
  end.

Fixpoint minimax_exhaustive_fuel (fuel : nat) (b : board) (depth : Z)
    (is_maximizing : bool) : option ext :=
  match fuel with
  | O => None
  | S fuel' =>
      if (depth =? 0) || is_terminal b then Some (Fin (leaf_value b))
      else if is_maximizing then
        best_of ext_max
          (exhaustive_child (fun nb => minimax_exhaustive_fuel fuel' nb (depth - 1) false) b AI)
          (get_valid_columns b) NegInf
      else
        best_of ext_min
          (exhaustive_child (fun nb => minimax_exhaustive_fuel fuel' nb (depth - 1) true) b PLAYER)
          (get_valid_columns b) PosInf
  end.

Definition minimax_exhaustive (b : board) (depth : Z) (is_maximizing : bool)
  : option ext :=
  minimax_exhaustive_fuel (S (count_empty b)) b depth is_maximizing.

(** The value alone of a child call. *)
Definition score_of {S : Type} (r : result (ext * S)) : result ext :=
  match r with
  | Ok (s, _) => Ok s
  | Raise e => Raise e
  | OutOfFuel => OutOfFuel
  end.

(** What a search with window [(alpha, beta)] guarantees about its result
    [v], the exhaustive value being [m]: exact inside the window, a bound on
    the right side outside it. *)
Definition ab_ok (alpha beta v m : ext) : Prop :=
  (ext_le v alpha -> ext_le m v)
  /\ (ext_lt alpha v -> ext_lt v beta -> m = v)
  /\ (ext_le beta v -> ext_le v m).

(** Every score a child call returns is an integer. *)
Definition fin_child {S : Type}
    (child : nat -> ext -> ext -> S -> result (ext * S)) (cols : list nat) : Prop :=
  forall col a bt rs s rs',
    In col cols -> child col a bt rs = Ok (s, rs') -> is_fin s.

(** Every child call returns. *)
Definition total_child {S : Type}
    (child : nat -> ext -> ext -> S -> result (ext * S)) (cols : list nat) : Prop :=
  forall col a bt rs,
    In col cols -> exists s rs', child col a bt rs = Ok (s, rs').

(** Every child call made with a non-empty window returns a score that is
    right, in the sense of [ab_ok], for the child's exhaustive value. *)
Definition ab_child {S : Type}
    (child : nat -> ext -> ext -> S -> result (ext * S))
    (mchild : nat -> option ext) (cols : list nat) : Prop :=
  forall col a bt rs,
    In col cols -> ext_lt a bt ->
    exists s rs' m,
      child col a bt rs = Ok (s, rs') /\ mchild col = Some m /\ ab_ok a bt s m.

(** The scores with their order, as the standard library's order
    interface. *)
Module ExtOrder <: EqLtLe.
Definition t := ext.
Definition eq := @Logic.eq ext.
Definition lt := ext_lt.
Definition le := ext_le.
End ExtOrder.

(** Two child calls, on two random sources, that agree on the score. *)
Definition same_scores {S1 S2 : Type}
    (child1 : nat -> ext -> ext -> S1 -> result (ext * S1))
    (child2 : nat -> ext -> ext -> S2 -> result (ext * S2))
    (cols : list nat) : Prop :=
  forall col a bt rs1 rs2,
    In col cols ->
    score_of (child1 col a bt rs1) = score_of (child2 col a bt rs2).

(** [c] is the first column of [cols] whose exhaustive value [v] is the
    largest one. *)
Definition first_best (mchild : nat -> option ext) (cols : list nat)
    (c : nat) (v : ext) : Prop :=
  In c cols /\ mchild c = Some v
  /\ forall c' m', In c' cols -> mchild c' = Some m' ->
                   ext_le m' v /\ (m' = v -> (c <= c')%nat).

(** Exhaustive value of the position reached by the Engine's move in
    column [col], the opponent being to move with one ply less. *)
Definition child_value (b : board) (depth : Z) (col : nat) : option ext :=
  exhaustive_child (fun nb => minimax_exhaustive nb (depth - 1) false) b AI col.

(** A terminal board: the Engine has four in the bottom row. *)
Definition board_ai_wins : board :=
  [[0;0;0;0;0;0;0]; [0;0;0;0;0;0;0]; [0;0;0;0;0;0;0];
   [0;0;0;0;0;0;0]; [1;1;1;0;0;0;0]; [2;2;2;2;0;0;0]].

(* ------------------------------------------------------------------ *)
(** ** Boards as objects

    [drop_piece] works on a copy: [b = board.copy()] allocates a new array
    and the loop writes into it.  The store below holds the arrays by
    address; [drop_piece_heap] is [drop_piece] on addresses. *)

Definition heap : Type := list board.

Fixpoint drop_loop_heap (h : heap) (bref col : nat) (piece : Z)
    (rows : list nat) : heap * option nat :=
  match rows with
  | [] => (h, None)
  | r :: rest =>
      if cell (nth bref h []) r col =? EMPTY
      then (set_nth bref (set_cell (nth bref h []) r col piece) h, Some bref)
      else drop_loop_heap h bref col piece rest
  end.

Definition drop_piece_heap (h : heap) (board_ref col : nat) (piece : Z)
  : heap * result (option nat) :=
  let bref := length h in
  let h := h ++ [nth board_ref h []] in
  if (COLS <=? col)%nat then (h, Raise IndexError)
  else
    let out := drop_loop_heap h bref col piece (rev (range ROWS)) in
    (fst out, Ok (snd out)).

(** Gravity: in a column no filled cell has an EMPTY cell below it. *)
Definition gravity (b : board) : Prop :=
  forall r r' c,
    (r < r')%nat -> (r' < ROWS)%nat -> (c < COLS)%nat ->
    cell b r c <> EMPTY -> cell b r' c <> EMPTY.

(** Boards obtained from the empty board by moves. *)
Inductive reachable : board -> Prop :=
| reach_empty : reachable create_board
| reach_move (b : board) (col : nat) (piece : Z) (b' : board) :
    reachable b -> drop_piece b col piece = Ok (Some b') -> reachable b'.

(** The board after the Engine and then the opponent played column 3. *)
Definition board_two_moves : board :=
  [[0;0;0;0;0;0;0]; [0;0;0;0;0;0;0]; [0;0;0;0;0;0;0];
   [0;0;0;0;0;0;0]; [0;0;0;1;0;0;0]; [0;0;0;2;0;0;0]].

(** A board whose column 0 is full. *)
Definition board_col0_full : board :=
  [[1;0;0;0;0;0;0]; [2;0;0;0;0;0;0]; [1;0;0;0;0;0;0];
   [2;0;0;0;0;0;0]; [1;0;0;0;0;0;0]; [2;0;0;0;0;0;0]].

(* ------------------------------------------------------------------ *)
(** ** The evaluator as the specification words it *)

(** [opp] of [score_window]. *)
Definition opponent (piece : Z) : Z := if piece =? AI then PLAYER else AI.

(** The score of a window from its three counts, in priority order. *)
Definition score_window_spec (p o e : nat) : Z :=
  if (p =? 4)%nat then 100
  else if (p =? 3)%nat && (e =? 1)%nat then 5
  else if (p =? 2)%nat && (e =? 2)%nat then 2
  else if (o =? 3)%nat && (e =? 1)%nat then -4
  else 0.

(** The four orientations, as the step (rows, columns) from a cell of a
    window to the next: horizontal, vertical, and the two diagonals. *)
Definition directions : list (Z * Z) := [(0, 1); (1, 0); (1, 1); (1, -1)].

(** The four cells of the window of origin [(r, c)] and direction [d]. *)
Definition window_cells (r c : nat) (d : Z * Z) : list (Z * Z) :=
  map (fun i => (Z.of_nat r + i * fst d, Z.of_nat c + i * snd d)) [0; 1; 2; 3].

Definition in_board (rc : Z * Z) : bool :=
  (0 <=? fst rc) && (fst rc <? Z.of_nat ROWS)
  && (0 <=? snd rc) && (snd rc <? Z.of_nat COLS).

(** A window is valid when its four cells are on the board. *)
Definition valid_window (r c : nat) (d : Z * Z) : bool :=
  forallb in_board (window_cells r c d).

(** Every valid window: all origins, all four orientations. *)
Definition all_windows : list (list (Z * Z)) :=
  flat_map (fun r =>
    flat_map (fun c =>
      flat_map (fun d =>
        if valid_window r c d then [window_cells r c d] else [])
        directions)
      (range COLS))
    (range ROWS).

Definition window_values (b : board) (w : list (Z * Z)) : list Z :=
  map (fun rc => cell b (Z.to_nat (fst rc)) (Z.to_nat (snd rc))) w.

Definition zsum (l : list Z) : Z := fold_right Z.add 0 l.

Definition score_position_spec (b : board) (piece : Z) : Z :=
  zsum (map (fun w => score_window (window_values b w) piece) all_windows)
  + 3 * Z.of_nat (count piece (map (fun r => cell b r 3) (range ROWS))).

Definition cell_eq_dec (x y : Z * Z) : {x = y} + {x <> y}.
Proof. decide equality; apply Z.eq_dec. Defined.

(** Every cell of [w1] is a cell of [w2]. *)
Definition subsetb (w1 w2 : list (Z * Z)) : bool :=
  forallb (fun x => existsb (fun y => if cell_eq_dec x y then true else false) w2) w1.

(* ------------------------------------------------------------------ *)
(** ** Predicates of the further properties *)

(** A score between the two win scores. *)
Definition in_range (v : ext) : Prop :=
  exists z, v = Fin z /\ -100000 <= z <= 100000.

(** Every score a child call returns satisfies [P]. *)
Definition pred_child {S : Type} (P : ext -> Prop)
    (child : nat -> ext -> ext -> S -> result (ext * S)) (cols : list nat) : Prop :=
  forall col a bt rs s rs',
    In col cols -> child col a bt rs = Ok (s, rs') -> P s.

(** A depth that the search cannot use up on board [b]: negative, or at
    least the number of EMPTY cells. *)
Definition unbounded_depth (b : board) (depth : Z) : Prop :=
  depth < 0 \/ Z.of_nat (count_empty b) <= depth.

(** A board where the Engine wins by playing column 3. *)
Definition board_ai_three : board :=
  [[0;0;0;0;0;0;0]; [0;0;0;0;0;0;0]; [0;0;0;0;0;0;0];
   [0;0;0;0;0;0;0]; [1;1;1;0;0;0;0]; [2;2;2;0;0;0;0]].

(* ------------------------------------------------------------------ *)
(** ** The AI battle: [ai_vs_ai]

    Console output and pauses are left out; what the function prints last
    (who wins, or a draw, and after how many moves) is its verdict here. *)

(** [-s] on a score. *)
Definition ext_neg (v : ext) : ext :=
  match v with
  | NegInf => PosInf
  | Fin z => Fin (- z)
  | PosInf => NegInf
  end.

Inductive verdict : Type :=
| RedWins      (* the side PLAYER, searched at [depth_1] *)
| YellowWins   (* the side AI, searched at [depth_2] *)
| Draw.

(** How a battle ends: with a verdict, the number of moves and the final
    board; by an exception ([Crashed]: a column [None] or a board [None]
    reaches numpy, or the search raises); or not within the bound of the
    loop ([Unfinished]). *)
Inductive battle (S : Type) : Type :=
| Finished (v : verdict) (move_count : nat) (b : board) (rs : S)
| Crashed
| Unfinished.

Arguments Finished {S} v move_count b rs.
Arguments Crashed {S}.
Arguments Unfinished {S}.

Section Battle.

Variable RandomState : Type.
Variable random_choice : RandomState -> list nat -> nat * RandomState.

(** The loop [for c in valid] of the first AI, which plays PLAYER: it keeps
    the column whose position has the largest [-s]. *)
Fixpoint ai1_loop (b : board) (depth_1 : Z) (cols : list nat)
    (best_col : option nat) (best_score : ext) (rs : RandomState)
  : result (option nat * ext * RandomState) :=
  match cols with
  | [] => Ok (best_col, best_score, rs)
  | c :: rest =>
      match drop_piece b c PLAYER with
      | Ok (Some nb) =>
          match minimax random_choice nb (depth_1 - 1) NegInf PosInf true rs with
          | Ok (_, s, rs') =>
              if ext_gtb (ext_neg s) best_score
              then ai1_loop b depth_1 rest (Some c) (ext_neg s) rs'
              else ai1_loop b depth_1 rest best_col best_score rs'
          | Raise e => Raise e
          | OutOfFuel => OutOfFuel
          end
      | Ok None => Raise TypeError
      | Raise e => Raise e
      | OutOfFuel => OutOfFuel
      end
  end.

Definition ai1_select (b : board) (depth_1 : Z) (rs : RandomState)
  : result (option nat * ext * RandomState) :=
  ai1_loop b depth_1 (get_valid_columns b) None NegInf rs.

(** [not get_valid_columns(board)] *)
Definition no_valid_column (b : board) : bool :=
  match get_valid_columns b with [] => true | _ :: _ => false end.

(** The [while True] loop, at most [fuel] times round. *)
Fixpoint ai_vs_ai_loop (fuel : nat) (depth_1 depth_2 : Z) (b : board)
    (move_count : nat) (rs : RandomState) : battle RandomState :=
  match fuel with
  | O => Unfinished
  | S fuel' =>
      match ai1_select b depth_1 rs with
      | Ok (Some best_col, _, rs1) =>
          match drop_piece b best_col PLAYER with
          | Ok (Some b1) =>
              let move_count := S move_count in
              if check_win b1 PLAYER then Finished RedWins move_count b1 rs1
              else if no_valid_column b1 then Finished Draw move_count b1 rs1
              else
                match ai_move random_choice b1 depth_2 rs1 with
                | Ok (Some ai_col, _, rs2) =>
                    match drop_piece b1 ai_col AI with
                    | Ok (Some b2) =>
                        let move_count := S move_count in
                        if check_win b2 AI
                        then Finished YellowWins move_count b2 rs2
                        else if no_valid_column b2
                        then Finished Draw move_count b2 rs2
                        else ai_vs_ai_loop fuel' depth_1 depth_2 b2 move_count rs2
                    | _ => Crashed
                    end
                | _ => Crashed
                end
          | _ => Crashed
          end
      | _ => Crashed
      end
  end.

(** [ai_vs_ai]: the board has [ROWS * COLS] cells and every round of the
    loop fills two, so the bound is never reached. *)
Definition ai_vs_ai (depth_1 depth_2 : Z) (rs : RandomState)
  : battle RandomState :=
  ai_vs_ai_loop (ROWS * COLS) depth_1 depth_2 create_board 0 rs.

End Battle.

Arguments ai1_loop {RandomState} random_choice b depth_1 cols best_col best_score rs.
Arguments ai1_select {RandomState} random_choice b depth_1 rs.
Arguments ai_vs_ai_loop {RandomState} random_choice fuel depth_1 depth_2 b move_count rs.
Arguments ai_vs_ai {RandomState} random_choice depth_1 depth_2 rs.

(** What is seen of a battle: all but the random state. *)
Definition battle_outcome {S : Type} (r : battle S) : battle unit :=
  match r with
  | Finished v n b _ => Finished v n b tt
  | Crashed => Crashed
  | Unfinished => Unfinished
  end.

(** Exhaustive value of the position reached by the move of PLAYER in column
    [col], the Engine being to move with [depth_1 - 1] plies. *)
Definition red_child_value (b : board) (depth_1 : Z) (col : nat) : option ext :=
  match drop_piece b col PLAYER with
  | Ok (Some nb) => minimax_exhaustive nb (depth_1 - 1) true
  | _ => None
  end.

(** [c] is the first column of [cols] whose value [z] is the smallest. *)
Definition first_least (mval : nat -> option ext) (cols : list nat)
    (c : nat) (z : Z) : Prop :=
  In c cols /\ mval c = Some (Fin z)
  /\ forall c' m', In c' cols -> mval c' = Some (Fin m') ->
                   z <= m' /\ (m' = z -> (c <= c')%nat).

(** What a verdict says of the final board. *)
Definition verdict_ok (v : verdict) (b : board) : Prop :=
  match v with
  | RedWins => check_win b PLAYER = true /\ check_win b AI = false
  | YellowWins => check_win b AI = true /\ check_win b PLAYER = false
  | Draw => check_win b PLAYER = false /\ check_win b AI = false
            /\ count_empty b = 0%nat
  end.

(* ------------------------------------------------------------------ *)
(** ** The game against the player: [play_game]

    One game, from the empty board to [game_over], for a chosen difficulty.
    Console output and pauses are left out.  The lines typed by the player
    are a list: [Some n] when [int(raw)] gives [n], [None] when it raises
    [ValueError].  The floats of the program are only compared, never
    computed with, so they are the rationals they denote. *)

Record difficulty : Type := {
  diff_depth : Z;
  diff_blunder : Q
}.

Definition key (c : ascii) : String.string :=
  String.String c String.EmptyString.

(** The table [DIFFICULTIES], without the display names; 0.08 is the double
    of that literal. *)
Definition DIFFICULTIES : list (String.string * difficulty) :=
  [ (key "1", {| diff_depth := 2; diff_blunder := 1 # 4 |});
    (key "2", {| diff_depth := 4;
                 diff_blunder := 5764607523034235 # 72057594037927936 |});
    (key "3", {| diff_depth := 6; diff_blunder := 0 |}) ].

(** The input loop of the player's turn: the first line that is a number
    [n] with [n - 1] a legal column is taken; every other line is answered
    by a message and asked again. *)
Fixpoint read_column (inputs : list (option Z)) (valid : list nat)
  : option (nat * list (option Z)) :=
  match inputs with
  | [] => None
  | raw :: rest =>
      match raw with
      | Some n =>
          let col := n - 1 in
          if (0 <=? col) && existsb (Nat.eqb (Z.to_nat col)) valid
          then Some (Z.to_nat col, rest)
          else read_column rest valid
      | None => read_column rest valid
      end
  end.

(** How a game ends: with a verdict; by an exception; waiting for a line
    that never comes ([AwaitingInput]: at the end of the input the loop of
    the player's turn goes round for ever); or not within the bound. *)
Inductive game (S : Type) : Type :=
| GameOver (v : verdict) (move_count : nat) (b : board) (rs : S)
    (rest : list (option Z))
| GameCrashed
| AwaitingInput (move_count : nat) (b : board) (rs : S)
| GameUnfinished.

Arguments GameOver {S} v move_count b rs rest.
Arguments GameCrashed {S}.
Arguments AwaitingInput {S} move_count b rs.
Arguments GameUnfinished {S}.

Section Game.

Variable RandomState : Type.
Variable random_choice : RandomState -> list nat -> nat * RandomState.
(** [random.random()] *)
Variable random_random : RandomState -> Q * RandomState.

(** The choice of the AI's column: a random legal column with probability
    [blunder_rate], the search otherwise. *)
Definition ai_turn_column (diff : difficulty) (b : board) (rs : RandomState)
  : result (option nat * RandomState) :=
  let search (rs : RandomState) :=
    match ai_move random_choice b (diff_depth diff) rs with
    | Ok (ai_col, _, rs') => Ok (ai_col, rs')
    | Raise e => Raise e
    | OutOfFuel => OutOfFuel
    end in
  if negb (Qle_bool (diff_blunder diff) 0) then
    let draw := random_random rs in
    if negb (Qle_bool (diff_blunder diff) (fst draw)) then
      match get_valid_columns b with
      | [] => Raise IndexError
      | valid =>
          let pick := random_choice (snd draw) valid in
          Ok (Some (fst pick), snd pick)
      end
    else search (snd draw)
  else search rs.

(** The loop [while not game_over], at most [fuel] times round.  The taunt
    printed after the AI's move is drawn from the 16 of [AI_TAUNTS]. *)
Fixpoint play_loop (fuel : nat) (diff : difficulty) (b : board)
    (move_count : nat) (inputs : list (option Z)) (rs : RandomState)
  : game RandomState :=
  match fuel with
  | O => GameUnfinished
  | S fuel' =>
      match read_column inputs (get_valid_columns b) with
      | None => AwaitingInput move_count b rs
      | Some (col, inputs) =>
          match drop_piece b col PLAYER with
          | Ok (Some b1) =>
              let move_count := S move_count in
              if check_win b1 PLAYER
              then GameOver RedWins move_count b1 rs inputs
              else if no_valid_column b1
              then GameOver Draw move_count b1 rs inputs
              else
                match ai_turn_column diff b1 rs with
                | Ok (Some ai_col, rs1) =>
                    match drop_piece b1 ai_col AI with
                    | Ok (Some b2) =>
                        let move_count := S move_count in
                        let rs2 := snd (random_choice rs1 (range 16)) in
                        if check_win b2 AI
                        then GameOver YellowWins move_count b2 rs2 inputs
                        else if no_valid_column b2
                        then GameOver Draw move_count b2 rs2 inputs
                        else play_loop fuel' diff b2 move_count inputs rs2
                    | _ => GameCrashed
                    end
                | _ => GameCrashed
                end
          | _ => GameCrashed
          end
      end
  end.

Definition play_game (diff : difficulty) (inputs : list (option Z))
    (rs : RandomState) : game RandomState :=
  play_loop (ROWS * COLS) diff create_board 0 inputs rs.

End Game.

Arguments ai_turn_column {RandomState} random_choice random_random diff b rs.
Arguments play_loop {RandomState} random_choice random_random fuel diff b move_count inputs rs.
Arguments play_game {RandomState} random_choice random_random diff inputs rs.


(** A random source for running a game: the draws of [random.random()] go
    through 0, 1/10, 2/10, ... *)
Definition counter_random (rs : nat) : Q * nat :=
  (Z.of_nat (rs mod 10) # 10, S rs).

(** What holds of a game that started on the empty board: no exception and
    no overrun; at the end the verdict fits the board; when the input runs
    out the game is still open. *)
Definition game_ok {S : Type} (g : game S) : Prop :=
  match g with
  | GameOver v n b _ _ =>
      wf_board b /\ gravity b /\ (n + count_empty b = 42)%nat
      /\ verdict_ok v b /\ is_terminal b = true
  | AwaitingInput n b _ =>
      wf_board b /\ gravity b /\ (n + count_empty b = 42)%nat
      /\ is_terminal b = false
  | GameCrashed => False
  | GameUnfinished => False
  end.


(* ================================================================== *)
(** * Properties *)

(* ------------------------------------------------------------------ *)
(** ** Lists updated in place *)

Lemma set_nth_length {A : Type} (i : nat) (x : A) (l : list A) :
  length (set_nth i x l) = length l.
Proof.
  revert i; induction l as [|h t IH]; intros [|i]; simpl; auto.
Qed.

Lemma nth_set_nth_same {A : Type} (i : nat) (x d : A) (l : list A) :
  (i < length l)%nat -> nth i (set_nth i x l) d = x.
Proof.
  revert i; induction l as [|h t IH]; intros [|i] Hi; simpl in *; try lia; auto.
  apply IH; lia.
Qed.

Lemma nth_set_nth_other {A : Type} (i j : nat) (x d : A) (l : list A) :
  i <> j -> nth j (set_nth i x l) d = nth j l d.
Proof.
  revert i j; induction l as [|h t IH]; intros [|i] [|j] Hij; simpl; auto;
    congruence.
Qed.

Lemma set_nth_outside {A : Type} (i : nat) (x : A) (l : list A) :
  (length l <= i)%nat -> set_nth i x l = l.
Proof.
  revert i; induction l as [|h t IH]; intros [|i] Hi; simpl in *; auto; try lia.
  f_equal; apply IH; lia.
Qed.

Lemma Forall_set_nth {A : Type} (P : A -> Prop) (i : nat) (x : A) (l : list A) :
  P x -> Forall P l -> Forall P (set_nth i x l).
Proof.
  intros Hx Hl; revert i; induction Hl as [|h t Hh Ht IH]; intros [|i]; simpl;
    constructor; auto.
Qed.

Lemma count_app (x : Z) (l1 l2 : list Z) :
  count x (l1 ++ l2) = (count x l1 + count x l2)%nat.
Proof. unfold count; now rewrite filter_app, length_app. Qed.

Lemma count_cons (x y : Z) (l : list Z) :
  count x (y :: l) = ((if (y =? x)%Z then 1 else 0) + count x l)%nat.
Proof. unfold count; simpl; destruct (y =? x); reflexivity. Qed.

Lemma count_set_nth (i : nat) (v : Z) (l : list Z) :
  (i < length l)%nat -> nth i l 0 = EMPTY -> v <> EMPTY ->
  S (count EMPTY (set_nth i v l)) = count EMPTY l.
Proof.
  unfold EMPTY; revert i; induction l as [|h t IH]; intros [|i] Hi Hn Hv;
    simpl in *; try lia.
  - subst h; rewrite !count_cons.
    destruct (Z.eqb_spec v 0); [contradiction|]. reflexivity.
  - rewrite !count_cons. rewrite <- (IH i); auto; lia.
Qed.

Lemma count_concat_set_nth (r : nat) (row' : list Z) (b : board) :
  (r < length b)%nat ->
  (count EMPTY (concat (set_nth r row' b)) + count EMPTY (nth r b []))%nat
  = (count EMPTY (concat b) + count EMPTY row')%nat.
Proof.
  revert r; induction b as [|h t IH]; intros [|r] Hr; simpl in *; try lia.
  - rewrite !count_app; lia.
  - rewrite !count_app. specialize (IH r ltac:(lia)). lia.
Qed.

(* ------------------------------------------------------------------ *)
(** ** Cells of a board after a move *)

Lemma wf_board_row (b : board) (r : nat) :
  wf_board b -> (r < ROWS)%nat -> length (nth r b []) = COLS.
Proof.
  intros [Hl Hf] Hr. rewrite Forall_forall in Hf.
  apply Hf, nth_In; lia.
Qed.

Lemma wf_boardb_sound (b : board) : wf_boardb b = true -> wf_board b.
Proof.
  unfold wf_boardb, wf_board; intros H.
  apply andb_true_iff in H as [H1 H2].
  apply Nat.eqb_eq in H1; split; auto.
  rewrite forallb_forall in H2. apply Forall_forall; intros x Hx.
  apply Nat.eqb_eq; auto.
Qed.

Lemma create_board_wf : wf_board create_board.
Proof. apply wf_boardb_sound; reflexivity. Qed.

Lemma set_cell_wf (b : board) (r c : nat) (v : Z) :
  wf_board b -> wf_board (set_cell b r c v).
Proof.
  intros Hwf; unfold set_cell.
  destruct (Nat.lt_ge_cases r (length b)) as [Hr|Hr].
  - pose proof Hwf as [Hl Hf]; split.
    + now rewrite set_nth_length.
    + apply Forall_set_nth; auto.
      rewrite set_nth_length. apply wf_board_row; auto; lia.
  - now rewrite set_nth_outside.
Qed.

Lemma cell_set_cell_same (b : board) (r c : nat) (v : Z) :
  wf_board b -> (r < ROWS)%nat -> (c < COLS)%nat ->
  cell (set_cell b r c v) r c = v.
Proof.
  intros Hwf Hr Hc; unfold cell, set_cell.
  rewrite nth_set_nth_same by (destruct Hwf; lia).
  apply nth_set_nth_same. rewrite wf_board_row; auto.
Qed.

Lemma cell_set_cell_other (b : board) (r c r' c' : nat) (v : Z) :
  r <> r' \/ c <> c' ->
  cell (set_cell b r c v) r' c' = cell b r' c'.
Proof.
  intros Hne; unfold cell, set_cell.
  destruct (Nat.eq_dec r r') as [<-|Hr].
  - destruct Hne as [Hne|Hne]; [congruence|].
    destruct (Nat.lt_ge_cases r (length b)) as [Hlt|Hge].
    + rewrite nth_set_nth_same by assumption. now apply nth_set_nth_other.
    + now rewrite set_nth_outside.
  - now rewrite nth_set_nth_other.
Qed.

Lemma count_empty_set_cell (b : board) (r c : nat) (v : Z) :
  wf_board b -> (r < ROWS)%nat -> (c < COLS)%nat ->
  cell b r c = EMPTY -> v <> EMPTY ->
  S (count_empty (set_cell b r c v)) = count_empty b.
Proof.
  intros Hwf Hr Hc He Hv; unfold count_empty, set_cell.
  pose proof (count_concat_set_nth r (set_nth c v (nth r b [])) b
                ltac:(destruct Hwf; lia)) as H.
  pose proof (count_set_nth c v (nth r b [])
                ltac:(rewrite wf_board_row; auto) He Hv) as H'.
  lia.
Qed.

(** The scan of [drop_piece] stops at the lowest EMPTY row of the column. *)
Lemma drop_scan_spec (b : board) (col : nat) (piece : Z) (n : nat) :
  match drop_scan b col piece (rev (seq 0 n)) with
  | Some b' =>
      exists r, (r < n)%nat /\ cell b r col = EMPTY
                /\ (forall r', (r < r' < n)%nat -> cell b r' col <> EMPTY)
                /\ b' = set_cell b r col piece
  | None => forall r, (r < n)%nat -> cell b r col <> EMPTY
  end.
Proof.
  induction n as [|n IH].
  - simpl; intros; lia.
  - rewrite seq_S, rev_app_distr; simpl.
    destruct (Z.eqb_spec (cell b n col) EMPTY) as [He|He].
    + exists n; repeat split; auto; intros; lia.
    + destruct (drop_scan b col piece (rev (seq 0 n))) as [b'|].
      * destruct IH as (r & Hr & Hc & Hab & ->).
        exists r; repeat split; auto; try lia.
        intros r' Hr'. destruct (Nat.eq_dec r' n) as [->|]; auto.
        apply Hab; lia.
      * intros r Hr. destruct (Nat.eq_dec r n) as [->|]; auto.
        apply IH; lia.
Qed.

Lemma get_valid_columns_In (b : board) (col : nat) :
  In col (get_valid_columns b) <-> (col < COLS)%nat /\ cell b 0 col = EMPTY.
Proof.
  unfold get_valid_columns, range; rewrite filter_In, in_seq, Z.eqb_eq.
  intuition lia.
Qed.

(** A legal column always receives the piece; the new board has the 6x7
    shape and one EMPTY cell less. *)
Lemma drop_piece_valid (b : board) (col : nat) (piece : Z) :
  wf_board b -> In col (get_valid_columns b) -> piece <> EMPTY ->
  exists b', drop_piece b col piece = Ok (Some b')
             /\ wf_board b' /\ S (count_empty b') = count_empty b.
Proof.
  intros Hwf Hin Hp. apply get_valid_columns_In in Hin as [Hc He].
  unfold drop_piece. destruct (Nat.leb_spec COLS col); [lia|].
  unfold range. pose proof (drop_scan_spec b col piece ROWS) as Hs.
  destruct (drop_scan b col piece (rev (seq 0 ROWS))) as [b'|].
  - destruct Hs as (r & Hr & Hcell & _ & ->).
    eexists; split; [reflexivity|]. split.
    + now apply set_cell_wf.
    + now apply count_empty_set_cell.
  - exfalso. apply (Hs O); [unfold ROWS; lia | assumption].
Qed.

(* ------------------------------------------------------------------ *)
(** ** The order on scores *)

Lemma ext_ltb_spec (a b : ext) :
  BoolSpec (ext_lt a b) (ext_le b a) (ext_ltb a b).
Proof.
  destruct a, b; simpl; try (constructor; simpl; exact I).
  destruct (Z.ltb_spec z z0); constructor; simpl; lia.
Qed.

Module ExtOrderFacts <: IsTotalOrder ExtOrder.

Lemma eq_equiv : Equivalence ExtOrder.eq.
Proof. unfold ExtOrder.eq; split; congruence. Qed.

Lemma lt_strorder : StrictOrder ExtOrder.lt.
Proof.
  split.
  - intros [| |]; unfold complement, ExtOrder.lt; simpl; lia.
  - intros [| |] [| |] [| |]; unfold ExtOrder.lt; simpl; lia.
Qed.

Lemma lt_compat : Proper (ExtOrder.eq ==> ExtOrder.eq ==> iff) ExtOrder.lt.
Proof. intros ? ? -> ? ? ->; reflexivity. Qed.

Lemma le_lteq (x y : ext) :
  ExtOrder.le x y <-> ExtOrder.lt x y \/ ExtOrder.eq x y.
Proof.
  unfold ExtOrder.le, ExtOrder.lt, ExtOrder.eq; destruct x, y; simpl;
    try tauto; try (split; [auto; fail | intros [[]|?]; try discriminate; auto]).
  split; [intros H; destruct (Z.eq_dec z z0); [right; congruence | left; lia]
         | intros [?|H]; [lia | inversion H; lia]].
Qed.

Lemma lt_total (x y : ext) :
  ExtOrder.lt x y \/ ExtOrder.eq x y \/ ExtOrder.lt y x.
Proof.
  unfold ExtOrder.lt, ExtOrder.eq; destruct x, y; simpl; auto.
  destruct (Z.lt_total z z0) as [?|[->|?]]; auto.
Qed.

End ExtOrderFacts.

Module ExtTac := MakeOrderTac ExtOrder ExtOrderFacts.

Lemma ext_le_or_lt (a b : ext) : ext_le a b \/ ext_lt b a.
Proof. destruct a, b; simpl; auto; lia. Qed.

Lemma ext_le_NegInf (a : ext) : ext_le NegInf a.
Proof. exact I. Qed.

Lemma ext_le_PosInf (a : ext) : ext_le a PosInf.
Proof. destruct a; exact I. Qed.

Lemma ext_ltb_true (a b : ext) : ext_ltb a b = true -> ext_lt a b.
Proof. now destruct (ext_ltb_spec a b). Qed.

Lemma ext_ltb_false (a b : ext) : ext_ltb a b = false -> ext_le b a.
Proof. now destruct (ext_ltb_spec a b). Qed.

(** Order goals on scores go to the [order] tactic, after a case analysis
    that drops the impossible cases as they appear. *)
Ltac ext_norm :=
  change ext_lt with ExtOrder.lt in *; change ext_le with ExtOrder.le in *;
  change (@Logic.eq ext) with ExtOrder.eq in *.

Ltac ext_contra := try solve [exfalso; ext_norm; ExtTac.order].

Ltac ext_test a b :=
  let E := fresh "E" in
  destruct (ext_ltb a b) eqn:E; rewrite ?E in *; cbv iota in *;
  [apply ext_ltb_true in E | apply ext_ltb_false in E]; ext_contra.

Ltac ext_tests :=
  unfold ext_max, ext_min, ext_gtb, ext_geb in *;
  repeat match goal with
         | |- context [ext_ltb ?a ?b] => ext_test a b
         | H : context [ext_ltb ?a ?b] |- _ => ext_test a b
         end.

Ltac ext_split :=
  repeat match goal with
         | H : _ /\ _ |- _ => destruct H
         | H : ext_le ?a ?b -> _ |- _ =>
             destruct (ext_le_or_lt a b);
             [ specialize (H ltac:(assumption)) | clear H ]; ext_contra
         | H : ext_lt ?a ?b -> _ |- _ =>
             destruct (ext_le_or_lt b a);
             [ clear H | specialize (H ltac:(assumption)) ]; ext_contra
         | |- _ -> _ => intro
         | |- _ /\ _ => split
         end.

Ltac ext_order := unfold ab_ok in *; ext_split; ext_norm; ExtTac.order.
Lemma ab_ok_exact (alpha beta v : ext) : ab_ok alpha beta v v.
Proof. ext_order. Qed.

Lemma ab_ok_full (v m : ext) : ab_ok NegInf PosInf v m -> m = v.
Proof.
  unfold ab_ok; destruct v, m; simpl; intros (H1 & H2 & H3); auto;
    try (exfalso; tauto); try (symmetry; tauto).
Qed.

(* ------------------------------------------------------------------ *)
(** ** The two loops of the search *)

Section Loops.

Context {S : Type}.
Variable child : nat -> ext -> ext -> S -> result (ext * S).

Lemma max_loop_fin (cols : list nat) :
  fin_child child cols ->
  forall value best alpha beta rs c v rs',
    is_fin value ->
    max_loop child cols value best alpha beta rs = Ok (c, v, rs') -> is_fin v.
Proof.
  induction cols as [|col rest IH]; intros Hc value best alpha beta rs c v rs' Hv H;
    simpl in H.
  - now inversion H; subst.
  - destruct (child col alpha beta rs) as [[s rs1]| |] eqn:Ec; try discriminate.
    assert (Hs : is_fin s) by (eapply Hc; [left; reflexivity | exact Ec]).
    assert (Hv' : is_fin (if ext_gtb s value then s else value))
      by (destruct (ext_gtb s value); assumption).
    destruct (ext_geb _ beta).
    + now inversion H; subst.
    + eapply IH; [|exact Hv'|exact H].
      intros ? ? ? ? ? ? Hin; eapply Hc; right; exact Hin.
Qed.

Lemma min_loop_fin (cols : list nat) :
  fin_child child cols ->
  forall value best alpha beta rs c v rs',
    is_fin value ->
    min_loop child cols value best alpha beta rs = Ok (c, v, rs') -> is_fin v.
Proof.
  induction cols as [|col rest IH]; intros Hc value best alpha beta rs c v rs' Hv H;
    simpl in H.
  - now inversion H; subst.
  - destruct (child col alpha beta rs) as [[s rs1]| |] eqn:Ec; try discriminate.
    assert (Hs : is_fin s) by (eapply Hc; [left; reflexivity | exact Ec]).
    assert (Hv' : is_fin (if ext_ltb s value then s else value))
      by (destruct (ext_ltb s value); assumption).
    destruct (ext_geb alpha _).
    + now inversion H; subst.
    + eapply IH; [|exact Hv'|exact H].
      intros ? ? ? ? ? ? Hin; eapply Hc; right; exact Hin.
Qed.

(** From the sentinel, the first column visited always replaces the running
    best: the result is an integer. *)
Lemma max_loop_first_fin (col : nat) (rest : list nat) :
  fin_child child (col :: rest) ->
  forall best alpha beta rs c v rs',
    max_loop child (col :: rest) NegInf best alpha beta rs = Ok (c, v, rs') ->
    is_fin v.
Proof.
  intros Hc best alpha beta rs c v rs' H; simpl in H.
  destruct (child col alpha beta rs) as [[s rs1]| |] eqn:Ec; try discriminate.
  assert (Hs : is_fin s) by (eapply Hc; [left; reflexivity | exact Ec]).
  destruct Hs as [z ->]; simpl in H.
  destruct (ext_geb _ beta).
  - inversion H; subst; now exists z.
  - eapply (max_loop_fin rest); [|exists z; reflexivity|exact H].
    intros ? ? ? ? ? ? Hin; eapply Hc; right; exact Hin.
Qed.

Lemma min_loop_first_fin (col : nat) (rest : list nat) :
  fin_child child (col :: rest) ->
  forall best alpha beta rs c v rs',
    min_loop child (col :: rest) PosInf best alpha beta rs = Ok (c, v, rs') ->
    is_fin v.
Proof.
  intros Hc best alpha beta rs c v rs' H; simpl in H.
  destruct (child col alpha beta rs) as [[s rs1]| |] eqn:Ec; try discriminate.
  assert (Hs : is_fin s) by (eapply Hc; [left; reflexivity | exact Ec]).
  destruct Hs as [z ->]; simpl in H.
  destruct (ext_geb alpha _).
  - inversion H; subst; now exists z.
  - eapply (min_loop_fin rest); [|exists z; reflexivity|exact H].
    intros ? ? ? ? ? ? Hin; eapply Hc; right; exact Hin.
Qed.

Lemma max_loop_total (cols : list nat) :
  total_child child cols ->
  forall value best alpha beta rs,
    exists c v rs', max_loop child cols value best alpha beta rs = Ok (c, v, rs').
Proof.
  induction cols as [|col rest IH]; intros Hc value best alpha beta rs; simpl.
  - eauto.
  - destruct (Hc col alpha beta rs (or_introl eq_refl)) as (s & rs1 & ->).
    destruct (ext_geb _ beta); [eauto|].
    apply IH. intros ? ? ? ? Hin; apply Hc; right; exact Hin.
Qed.

Lemma min_loop_total (cols : list nat) :
  total_child child cols ->
  forall value best alpha beta rs,
    exists c v rs', min_loop child cols value best alpha beta rs = Ok (c, v, rs').
Proof.
  induction cols as [|col rest IH]; intros Hc value best alpha beta rs; simpl.
  - eauto.
  - destruct (Hc col alpha beta rs (or_introl eq_refl)) as (s & rs1 & ->).
    destruct (ext_geb alpha _); [eauto|].
    apply IH. intros ? ? ? ? Hin; apply Hc; right; exact Hin.
Qed.

End Loops.

(* ------------------------------------------------------------------ *)
(** ** Pruning keeps the value *)

Section Pruning.

Context {S : Type}.
Variable child : nat -> ext -> ext -> S -> result (ext * S).
Variable mchild : nat -> option ext.

Lemma ab_child_tail (col : nat) (rest : list nat) :
  ab_child child mchild (col :: rest) -> ab_child child mchild rest.
Proof. intros H ? ? ? ? Hin; apply H; right; exact Hin. Qed.

Lemma best_of_max_total (cols : list nat) (rs : S) :
  ab_child child mchild cols ->
  forall acc, exists m, best_of ext_max mchild cols acc = Some m /\ ext_le acc m.
Proof.
  induction cols as [|col rest IH]; intros Hc acc; simpl.
  - exists acc; split; [reflexivity | ext_order].
  - destruct (Hc col NegInf PosInf rs (or_introl eq_refl) I)
      as (s & rs' & mc & _ & -> & _).
    destruct (IH (ab_child_tail _ _ Hc) (ext_max acc mc)) as (m & -> & Hm).
    exists m; split; [reflexivity|]. ext_tests; ext_order.
Qed.

Lemma best_of_min_total (cols : list nat) (rs : S) :
  ab_child child mchild cols ->
  forall acc, exists m, best_of ext_min mchild cols acc = Some m /\ ext_le m acc.
Proof.
  induction cols as [|col rest IH]; intros Hc acc; simpl.
  - exists acc; split; [reflexivity | ext_order].
  - destruct (Hc col NegInf PosInf rs (or_introl eq_refl) I)
      as (s & rs' & mc & _ & -> & _).
    destruct (IH (ab_child_tail _ _ Hc) (ext_min acc mc)) as (m & -> & Hm).
    exists m; split; [reflexivity|]. ext_tests; ext_order.
Qed.

(** Maximizing loop: [alpha0] is the bound the node was called with,
    [alpha] the running one, [msofar] the exhaustive maximum of the columns
    already visited. *)
Lemma max_loop_ab (cols : list nat) :
  ab_child child mchild cols ->
  forall value best alpha0 alpha beta rs msofar,
    alpha = ext_max alpha0 value ->
    ext_lt alpha beta ->
    (ext_le value alpha0 -> ext_le msofar value) ->
    (ext_lt alpha0 value -> msofar = value) ->
    exists c v rs' m,
      max_loop child cols value best alpha beta rs = Ok (c, v, rs')
      /\ best_of ext_max mchild cols msofar = Some m
      /\ ab_ok alpha0 beta v m.
Proof.
  induction cols as [|col rest IH];
    intros Hc value best alpha0 alpha beta rs msofar Ha Hlt H1 H2; simpl.
  - exists best, value, rs, msofar; repeat split; subst alpha;
      ext_tests; ext_order.
  - destruct (Hc col alpha beta rs (or_introl eq_refl) Hlt)
      as (s & rs1 & mc & -> & -> & Hab).
    destruct (ext_geb (ext_max alpha (if ext_gtb s value then s else value)) beta)
      eqn:Ebreak.
    + destruct (best_of_max_total rest rs (ab_child_tail _ _ Hc) (ext_max msofar mc))
        as (m & -> & Hm).
      do 4 eexists; split; [reflexivity|]; split; [reflexivity|].
      subst alpha; simpl negb in *; ext_tests; try discriminate; ext_order.
    + eapply (IH (ab_child_tail _ _ Hc) _ _ alpha0 _ beta rs1 (ext_max msofar mc));
        subst alpha; simpl negb in *; ext_tests; try discriminate; ext_order.
Qed.

(** Minimizing loop, the mirror image: [beta0] is the bound the node was
    called with, [msofar] the exhaustive minimum of the columns visited. *)
Lemma min_loop_ab (cols : list nat) :
  ab_child child mchild cols ->
  forall value best alpha beta0 beta rs msofar,
    beta = ext_min beta0 value ->
    ext_lt alpha beta ->
    (ext_le beta0 value -> ext_le value msofar) ->
    (ext_lt value beta0 -> msofar = value) ->
    exists c v rs' m,
      min_loop child cols value best alpha beta rs = Ok (c, v, rs')
      /\ best_of ext_min mchild cols msofar = Some m
      /\ ab_ok alpha beta0 v m.
Proof.
  induction cols as [|col rest IH];
    intros Hc value best alpha beta0 beta rs msofar Hb Hlt H1 H2; simpl.
  - exists best, value, rs, msofar; repeat split; subst beta;
      ext_tests; ext_order.
  - destruct (Hc col alpha beta rs (or_introl eq_refl) Hlt)
      as (s & rs1 & mc & -> & -> & Hab).
    destruct (ext_geb alpha (ext_min beta (if ext_ltb s value then s else value)))
      eqn:Ebreak.
    + destruct (best_of_min_total rest rs (ab_child_tail _ _ Hc) (ext_min msofar mc))
        as (m & -> & Hm).
      do 4 eexists; split; [reflexivity|]; split; [reflexivity|].
      subst beta; simpl negb in *; ext_tests; try discriminate; ext_order.
    + eapply (IH (ab_child_tail _ _ Hc) _ _ alpha beta0 _ rs1 (ext_min msofar mc));
        subst beta; simpl negb in *; ext_tests; try discriminate; ext_order.
Qed.

End Pruning.

(* ------------------------------------------------------------------ *)
(** ** The search on a board *)

Lemma is_terminal_false_cols (b : board) :
  is_terminal b = false -> get_valid_columns b <> [].
Proof.
  unfold is_terminal; intros H Hn; rewrite Hn in H; simpl in H.
  now rewrite orb_true_r in H.
Qed.

Lemma leaf_value_terminal (b : board) :
  is_terminal b = true ->
  leaf_value b = if check_win b AI then 100000
                 else if check_win b PLAYER then -100000 else 0.
Proof. unfold leaf_value; now intros ->. Qed.

Lemma AI_not_EMPTY : AI <> EMPTY.
Proof. discriminate. Qed.

Lemma PLAYER_not_EMPTY : PLAYER <> EMPTY.
Proof. discriminate. Qed.

Section SearchFacts.

Variable RandomState : Type.
Variable random_choice : RandomState -> list nat -> nat * RandomState.

(** Every value the search returns is an integer, never an infinity. *)
Lemma minimax_fuel_fin (fuel : nat) :
  forall b depth alpha beta is_maximizing rs c v rs',
    minimax_fuel random_choice fuel b depth alpha beta is_maximizing rs
    = Ok (c, v, rs') ->
    is_fin v.
Proof.
  induction fuel as [|fuel IH]; intros b depth alpha beta mx rs c v rs' H;
    simpl in H; [discriminate|].
  destruct ((depth =? 0) || is_terminal b).
  - destruct (is_terminal b);
      [destruct (check_win b AI); [|destruct (check_win b PLAYER)]|];
      inversion H; subst; eexists; reflexivity.
  - assert (Hchild : forall piece mx' cols,
              fin_child
                (child_score
                   (fun nb a bt r =>
                      minimax_fuel random_choice fuel nb (depth - 1) a bt mx' r)
                   b piece) cols).
    { intros piece mx' cols col a bt r s r' _ Hs. unfold child_score in Hs.
      destruct (drop_piece b col piece) as [[nb|]| |]; try discriminate.
      destruct (minimax_fuel random_choice fuel nb (depth - 1) a bt mx' r)
        as [[[c' v'] r'']| |] eqn:E; try discriminate.
      inversion Hs; subst. eapply IH; exact E. }
    destruct (get_valid_columns b) as [|col rest]; [discriminate|].
    destruct mx.
    + eapply max_loop_first_fin; [apply Hchild | exact H].
    + eapply min_loop_first_fin; [apply Hchild | exact H].
Qed.

(** The search returns on every 6x7 board once the bound exceeds the number
    of EMPTY cells. *)
Lemma minimax_fuel_total (fuel : nat) :
  forall b depth alpha beta is_maximizing rs,
    wf_board b -> (count_empty b < fuel)%nat ->
    exists c v rs',
      minimax_fuel random_choice fuel b depth alpha beta is_maximizing rs
      = Ok (c, v, rs').
Proof.
  induction fuel as [|fuel IH]; intros b depth alpha beta mx rs Hwf Hf;
    [lia|]; simpl.
  destruct ((depth =? 0) || is_terminal b) eqn:E.
  - destruct (is_terminal b);
      [destruct (check_win b AI); [|destruct (check_win b PLAYER)]|]; eauto.
  - apply orb_false_iff in E as [_ Ht].
    assert (Hchild : forall piece mx', piece <> EMPTY ->
              total_child
                (child_score
                   (fun nb a bt r =>
                      minimax_fuel random_choice fuel nb (depth - 1) a bt mx' r)
                   b piece) (get_valid_columns b)).
    { intros piece mx' Hp col a bt r Hin. unfold child_score.
      destruct (drop_piece_valid b col piece Hwf Hin Hp) as (nb & -> & Hwf' & Hc).
      destruct (IH nb (depth - 1) a bt mx' r Hwf' ltac:(lia))
        as (c' & v' & r' & ->). eauto. }
    pose proof (is_terminal_false_cols b Ht) as Hne.
    destruct (get_valid_columns b) as [|col rest]; [congruence|].
    destruct mx.
    + apply max_loop_total, Hchild, AI_not_EMPTY.
    + apply min_loop_total, Hchild, PLAYER_not_EMPTY.
Qed.

(** The search returns, and its value is right for its window. *)
Lemma minimax_fuel_ab (fuel : nat) :
  forall b depth alpha beta is_maximizing rs,
    wf_board b -> (count_empty b < fuel)%nat -> ext_lt alpha beta ->
    exists c v rs' m,
      minimax_fuel random_choice fuel b depth alpha beta is_maximizing rs
      = Ok (c, v, rs')
      /\ minimax_exhaustive_fuel fuel b depth is_maximizing = Some m
      /\ ab_ok alpha beta v m.
Proof.
  induction fuel as [|fuel IH]; intros b depth alpha beta mx rs Hwf Hf Hlt;
    [lia|]; simpl.
  destruct ((depth =? 0) || is_terminal b) eqn:E.
  - unfold leaf_value.
    destruct (is_terminal b);
      [destruct (check_win b AI); [|destruct (check_win b PLAYER)]|];
      do 4 eexists; (split; [reflexivity|]); (split; [reflexivity|]);
      apply ab_ok_exact.
  - apply orb_false_iff in E as [_ Ht].
    assert (Hchild : forall piece mx', piece <> EMPTY ->
              ab_child
                (child_score
                   (fun nb a bt r =>
                      minimax_fuel random_choice fuel nb (depth - 1) a bt mx' r)
                   b piece)
                (exhaustive_child
                   (fun nb => minimax_exhaustive_fuel fuel nb (depth - 1) mx')
                   b piece)
                (get_valid_columns b)).
    { intros piece mx' Hp col a bt r Hin Hab.
      unfold child_score, exhaustive_child.
      destruct (drop_piece_valid b col piece Hwf Hin Hp) as (nb & -> & Hwf' & Hc).
      destruct (IH nb (depth - 1) a bt mx' r Hwf' ltac:(lia) Hab)
        as (c' & v' & r' & m' & -> & -> & Hok).
      exists v', r', m'; split; [reflexivity | split; [reflexivity | exact Hok]]. }
    pose proof (is_terminal_false_cols b Ht) as Hne.
    destruct (get_valid_columns b) as [|col rest]; [congruence|].
    destruct mx.
    + apply (max_loop_ab _ _ _ (Hchild AI false AI_not_EMPTY)) with (alpha0 := alpha);
        auto; try (intros; exact I).
      destruct alpha; reflexivity.
    + apply (min_loop_ab _ _ _ (Hchild PLAYER true PLAYER_not_EMPTY))
        with (beta0 := beta); auto; try (intros; exact I);
        destruct beta; try reflexivity; intros; exact I.
Qed.

End SearchFacts.

(* ------------------------------------------------------------------ *)
(** ** The random draw does not reach the result *)

Section LoopIndependence.

Context {S1 S2 : Type}.
Variable child1 : nat -> ext -> ext -> S1 -> result (ext * S1).
Variable child2 : nat -> ext -> ext -> S2 -> result (ext * S2).

Lemma same_scores_tail (col : nat) (rest : list nat) :
  same_scores child1 child2 (col :: rest) -> same_scores child1 child2 rest.
Proof. intros H ? ? ? ? ? Hin; apply H; right; exact Hin. Qed.

Lemma max_loop_indep (cols : list nat) :
  same_scores child1 child2 cols ->
  forall value best alpha beta rs1 rs2,
    outcome (max_loop child1 cols value best alpha beta rs1)
    = outcome (max_loop child2 cols value best alpha beta rs2).
Proof.
  induction cols as [|col rest IH]; intros Hc value best alpha beta rs1 rs2;
    simpl; [reflexivity|].
  pose proof (Hc col alpha beta rs1 rs2 (or_introl eq_refl)) as Hs.
  destruct (child1 col alpha beta rs1) as [[s1 r1]| |],
           (child2 col alpha beta rs2) as [[s2 r2]| |];
    simpl in Hs; try discriminate; try (inversion Hs; subst; reflexivity).
  inversion Hs; subst s2.
  destruct (ext_geb _ beta); [reflexivity|].
  apply IH, (same_scores_tail _ _ Hc).
Qed.

Lemma min_loop_indep (cols : list nat) :
  same_scores child1 child2 cols ->
  forall value best alpha beta rs1 rs2,
    outcome (min_loop child1 cols value best alpha beta rs1)
    = outcome (min_loop child2 cols value best alpha beta rs2).
Proof.
  induction cols as [|col rest IH]; intros Hc value best alpha beta rs1 rs2;
    simpl; [reflexivity|].
  pose proof (Hc col alpha beta rs1 rs2 (or_introl eq_refl)) as Hs.
  destruct (child1 col alpha beta rs1) as [[s1 r1]| |],
           (child2 col alpha beta rs2) as [[s2 r2]| |];
    simpl in Hs; try discriminate; try (inversion Hs; subst; reflexivity).
  inversion Hs; subst s2.
  destruct (ext_geb alpha _); [reflexivity|].
  apply IH, (same_scores_tail _ _ Hc).
Qed.

(** From the sentinel, the two initial columns are overwritten by the first
    column visited. *)
Lemma max_loop_first_indep (col : nat) (rest : list nat) :
  fin_child child1 (col :: rest) ->
  same_scores child1 child2 (col :: rest) ->
  forall best1 best2 alpha beta rs1 rs2,
    outcome (max_loop child1 (col :: rest) NegInf best1 alpha beta rs1)
    = outcome (max_loop child2 (col :: rest) NegInf best2 alpha beta rs2).
Proof.
  intros Hf Hc best1 best2 alpha beta rs1 rs2; simpl.
  pose proof (Hc col alpha beta rs1 rs2 (or_introl eq_refl)) as Hs.
  pose proof (Hf col alpha beta rs1) as Hfin.
  destruct (child1 col alpha beta rs1) as [[s1 r1]| |],
           (child2 col alpha beta rs2) as [[s2 r2]| |];
    simpl in Hs; try discriminate; try (inversion Hs; subst; reflexivity).
  inversion Hs; subst s2.
  destruct (Hfin s1 r1 (or_introl eq_refl) eq_refl) as [z ->]; simpl.
  destruct (ext_geb _ beta); [reflexivity|].
  apply max_loop_indep, (same_scores_tail _ _ Hc).
Qed.

Lemma min_loop_first_indep (col : nat) (rest : list nat) :
  fin_child child1 (col :: rest) ->
  same_scores child1 child2 (col :: rest) ->
  forall best1 best2 alpha beta rs1 rs2,
    outcome (min_loop child1 (col :: rest) PosInf best1 alpha beta rs1)
    = outcome (min_loop child2 (col :: rest) PosInf best2 alpha beta rs2).
Proof.
  intros Hf Hc best1 best2 alpha beta rs1 rs2; simpl.
  pose proof (Hc col alpha beta rs1 rs2 (or_introl eq_refl)) as Hs.
  pose proof (Hf col alpha beta rs1) as Hfin.
  destruct (child1 col alpha beta rs1) as [[s1 r1]| |],
           (child2 col alpha beta rs2) as [[s2 r2]| |];
    simpl in Hs; try discriminate; try (inversion Hs; subst; reflexivity).
  inversion Hs; subst s2.
  destruct (Hfin s1 r1 (or_introl eq_refl) eq_refl) as [z ->]; simpl.
  destruct (ext_geb alpha _); [reflexivity|].
  apply min_loop_indep, (same_scores_tail _ _ Hc).
Qed.

End LoopIndependence.

Section Independence.

Context {S1 S2 : Type}.
Variable choice1 : S1 -> list nat -> nat * S1.
Variable choice2 : S2 -> list nat -> nat * S2.

Lemma minimax_fuel_indep (fuel : nat) :
  forall b depth alpha beta is_maximizing rs1 rs2,
    outcome (minimax_fuel choice1 fuel b depth alpha beta is_maximizing rs1)
    = outcome (minimax_fuel choice2 fuel b depth alpha beta is_maximizing rs2).
Proof.
  induction fuel as [|fuel IH]; intros b depth alpha beta mx rs1 rs2; simpl;
    [reflexivity|].
  destruct ((depth =? 0) || is_terminal b).
  - destruct (is_terminal b);
      [destruct (check_win b AI); [|destruct (check_win b PLAYER)]|]; reflexivity.
  - assert (Hfin : forall piece mx' cols,
              fin_child
                (child_score
                   (fun nb a bt r => minimax_fuel choice1 fuel nb (depth - 1) a bt mx' r)
                   b piece) cols).
    { intros piece mx' cols col a bt r s r' _ Hs. unfold child_score in Hs.
      destruct (drop_piece b col piece) as [[nb|]| |]; try discriminate.
      destruct (minimax_fuel choice1 fuel nb (depth - 1) a bt mx' r)
        as [[[c' v'] r'']| |] eqn:E; try discriminate.
      inversion Hs; subst. eapply minimax_fuel_fin; exact E. }
    assert (Hsame : forall piece mx' cols,
              same_scores
                (child_score
                   (fun nb a bt r => minimax_fuel choice1 fuel nb (depth - 1) a bt mx' r)
                   b piece)
                (child_score
                   (fun nb a bt r => minimax_fuel choice2 fuel nb (depth - 1) a bt mx' r)
                   b piece) cols).
    { intros piece mx' cols col a bt r1 r2 _. unfold child_score.
      destruct (drop_piece b col piece) as [[nb|]| |]; try reflexivity.
      pose proof (IH nb (depth - 1) a bt mx' r1 r2) as Hs.
      destruct (minimax_fuel choice1 fuel nb (depth - 1) a bt mx' r1)
        as [[[c1 v1] r1']| |],
               (minimax_fuel choice2 fuel nb (depth - 1) a bt mx' r2)
        as [[[c2 v2] r2']| |];
        simpl in Hs; try discriminate; inversion Hs; subst; reflexivity. }
    destruct (get_valid_columns b) as [|col rest]; [reflexivity|].
    destruct mx.
    + apply max_loop_first_indep; [apply Hfin | apply Hsame].
    + apply min_loop_first_indep; [apply Hfin | apply Hsame].
Qed.

End Independence.

(* ------------------------------------------------------------------ *)
(** ** The column returned at the root *)

Lemma filter_seq_sorted (f : nat -> bool) (n a : nat) :
  StronglySorted lt (filter f (seq a n)).
Proof.
  revert a; induction n as [|n IH]; intros a; simpl; [constructor|].
  destruct (f a); [|apply IH].
  constructor; [apply IH|].
  apply Forall_forall; intros x Hx.
  apply filter_In in Hx as [Hx _]. apply in_seq in Hx. lia.
Qed.

Lemma get_valid_columns_sorted (b : board) :
  StronglySorted lt (get_valid_columns b).
Proof. apply filter_seq_sorted. Qed.

Section Root.

Context {S : Type}.
Variable child : nat -> ext -> ext -> S -> result (ext * S).
Variable mchild : nat -> option ext.

(** The loop of the root call, whose window is open above: [done] are the
    columns already visited, [value] their exhaustive maximum and [best] the
    first of them that reaches it. *)
Lemma root_max_loop (cols : list nat) :
  ab_child child mchild cols ->
  fin_child child cols ->
  StronglySorted lt cols ->
  forall done value best rs,
    (forall d c, In d done -> In c cols -> (d < c)%nat) ->
    (done = [] /\ value = NegInf)
    \/ (exists c0, best = Some c0 /\ first_best mchild done c0 value
                   /\ is_fin value) ->
    done ++ cols <> [] ->
    exists c v rs',
      max_loop child cols value best value PosInf rs = Ok (Some c, v, rs')
      /\ first_best mchild (done ++ cols) c v.
Proof.
  induction cols as [|col rest IH];
    intros Hab Hfin Hsort done value best rs Hlt Hinv Hne.
  - rewrite app_nil_r in *.
    destruct Hinv as [[-> _]|(c0 & -> & Hfb & _)]; [congruence|].
    simpl; eauto.
  - inversion Hsort as [|? ? Hsort' Hall]; subst.
    rewrite Forall_forall in Hall.
    assert (Hopen : ext_lt value PosInf).
    { destruct Hinv as [[_ ->]|(_ & _ & _ & z & ->)]; exact I. }
    destruct (Hab col value PosInf rs (or_introl eq_refl) Hopen)
      as (s & rs1 & mc & Es & Em & Hok).
    destruct (Hfin col value PosInf rs s rs1 (or_introl eq_refl) Es) as [zs ->].
    simpl; rewrite Es.
    assert (Hlt' : forall d c, In d (done ++ [col]) -> In c rest -> (d < c)%nat).
    { intros d c Hd Hc. apply in_app_or in Hd as [Hd|[<-|[]]].
      - apply Hlt; [exact Hd | right; exact Hc].
      - apply Hall, Hc. }
    assert (Hne' : (done ++ [col]) ++ rest <> []).
    { destruct done; discriminate. }
    replace (done ++ col :: rest) with ((done ++ [col]) ++ rest)
      by (rewrite <- app_assoc; reflexivity).
    destruct (ext_ltb_spec value (Fin zs)) as [Himp|Hnot]; unfold ext_gtb.
    + (* strict improvement: the column becomes the best one *)
      destruct (ext_ltb_spec value (Fin zs)) as [_|Hc]; [|exfalso; ext_order].
      assert (Hmc : mc = Fin zs) by (apply Hok; [exact Himp | exact I]).
      subst mc.
      replace (ext_max value (Fin zs)) with (Fin zs)
        by (unfold ext_max, ext_gtb;
            destruct (ext_ltb_spec value (Fin zs)); [reflexivity | exfalso; ext_order]).
      simpl.
      apply (IH (ab_child_tail _ _ _ _ Hab)
                ltac:(intros ? ? ? ? ? ? Hin; eapply Hfin; right; exact Hin)
                Hsort' (done ++ [col]) (Fin zs) (Some col) rs1 Hlt'); auto.
      right; exists col; split; [reflexivity|]; split; [|eexists; reflexivity].
      split; [apply in_or_app; right; left; reflexivity|].
      split; [exact Em|].
      intros c' m' Hc' Hm'. apply in_app_or in Hc' as [Hc'|[<-|[]]].
      * destruct Hinv as [[-> _]|(c0 & _ & (_ & _ & Hb) & _)]; [contradiction|].
        destruct (Hb c' m' Hc' Hm') as [Hle _].
        split; [ext_order | intros ->; exfalso; ext_order].
      * rewrite Em in Hm'; inversion Hm'; subst m'.
        split; [ext_order | intros _; lia].
    + (* no strict improvement: the running best stays *)
      destruct (ext_ltb_spec value (Fin zs)) as [Hc|_]; [exfalso; ext_order|].
      destruct Hinv as [[_ ->]|(c0 & -> & (Hin0 & Hm0 & Hb) & zv & ->)];
        [exfalso; exact Hnot|].
      replace (ext_max (Fin zv) (Fin zv)) with (Fin zv)
        by (unfold ext_max, ext_gtb; simpl; rewrite Z.ltb_irrefl; reflexivity).
      simpl.
      apply (IH (ab_child_tail _ _ _ _ Hab)
                ltac:(intros ? ? ? ? ? ? Hin; eapply Hfin; right; exact Hin)
                Hsort' (done ++ [col]) (Fin zv) (Some c0) rs1 Hlt'); auto.
      right; exists c0; split; [reflexivity|]; split; [|eexists; reflexivity].
      split; [apply in_or_app; left; exact Hin0|].
      split; [exact Hm0|].
      intros c' m' Hc' Hm'. apply in_app_or in Hc' as [Hc'|[<-|[]]].
      * apply Hb; assumption.
      * rewrite Em in Hm'; inversion Hm'; subst m'.
        assert (Hle : ext_le mc (Fin zs)) by (apply Hok; exact Hnot).
        split; [ext_order|].
        intros _. apply Nat.lt_le_incl, Hlt; [exact Hin0 | left; reflexivity].
Qed.

End Root.

(* ------------------------------------------------------------------ *)
(** ** Child calls of a node *)

Section ChildFacts.

Context {S : Type}.
Variable random_choice : S -> list nat -> nat * S.

Lemma child_score_fin (fuel : nat) (b : board) (depth : Z) (piece : Z)
    (mx : bool) (cols : list nat) :
  fin_child
    (child_score
       (fun nb a bt r => minimax_fuel random_choice fuel nb depth a bt mx r)
       b piece) cols.
Proof.
  intros col a bt r s r' _ Hs. unfold child_score in Hs.
  destruct (drop_piece b col piece) as [[nb|]| |]; try discriminate.
  destruct (minimax_fuel random_choice fuel nb depth a bt mx r)
    as [[[c' v'] r'']| |] eqn:E; try discriminate.
  inversion Hs; subst. eapply minimax_fuel_fin; exact E.
Qed.

Lemma child_score_ab (fuel : nat) (b : board) (depth : Z) (piece : Z)
    (mx : bool) :
  wf_board b -> (count_empty b <= fuel)%nat -> piece <> EMPTY ->
  ab_child
    (child_score
       (fun nb a bt r => minimax_fuel random_choice fuel nb depth a bt mx r)
       b piece)
    (exhaustive_child (fun nb => minimax_exhaustive_fuel fuel nb depth mx) b piece)
    (get_valid_columns b).
Proof.
  intros Hwf Hf Hp col a bt r Hin Hab. unfold child_score, exhaustive_child.
  destruct (drop_piece_valid b col piece Hwf Hin Hp) as (nb & -> & Hwf' & Hc).
  destruct (minimax_fuel_ab _ random_choice fuel nb depth a bt mx r Hwf'
              ltac:(lia) Hab) as (c' & v' & r' & m' & -> & -> & Hok).
  exists v', r', m'; split; [reflexivity | split; [reflexivity | exact Hok]].
Qed.

End ChildFacts.

Lemma first_best_ext (m1 m2 : nat -> option ext) (cols : list nat)
    (c : nat) (v : ext) :
  (forall col, In col cols -> m1 col = m2 col) ->
  first_best m1 cols c v -> first_best m2 cols c v.
Proof.
  intros Hext (Hin & Hm & Hb); split; [exact Hin|]; split.
  - rewrite <- Hext; assumption.
  - intros c' m' Hc' Hm'. apply Hb; [exact Hc'|]. rewrite Hext; assumption.
Qed.

Lemma child_value_fuel (b : board) (depth : Z) (col : nat) :
  wf_board b -> In col (get_valid_columns b) ->
  exhaustive_child
    (fun nb => minimax_exhaustive_fuel (count_empty b) nb (depth - 1) false) b AI col
  = child_value b depth col.
Proof.
  intros Hwf Hin; unfold child_value, exhaustive_child, minimax_exhaustive.
  destruct (drop_piece_valid b col AI Hwf Hin AI_not_EMPTY) as (nb & -> & _ & Hc).
  now rewrite Hc.
Qed.

Section LoopColumn.

Context {S : Type}.
Variable child : nat -> ext -> ext -> S -> result (ext * S).

Lemma max_loop_col (cols : list nat) :
  forall value best alpha beta rs c v rs',
    max_loop child cols value best alpha beta rs = Ok (c, v, rs') ->
    c = best \/ exists col, In col cols /\ c = Some col.
Proof.
  induction cols as [|col rest IH]; intros value best alpha beta rs c v rs' H;
    simpl in H.
  - inversion H; auto.
  - destruct (child col alpha beta rs) as [[s rs1]| |]; try discriminate.
    assert (Hb : (if ext_gtb s value then Some col else best) = best
                 \/ (if ext_gtb s value then Some col else best) = Some col)
      by (destruct (ext_gtb s value); auto).
    destruct (ext_geb _ beta).
    + inversion H; subst. destruct Hb as [->| ->]; [auto|].
      right; exists col; split; [left|]; reflexivity.
    + apply IH in H as [->|(col' & Hin & ->)].
      * destruct Hb as [->| ->]; [auto|].
        right; exists col; split; [left|]; reflexivity.
      * right; exists col'; split; [right; exact Hin | reflexivity].
Qed.

Lemma min_loop_col (cols : list nat) :
  forall value best alpha beta rs c v rs',
    min_loop child cols value best alpha beta rs = Ok (c, v, rs') ->
    c = best \/ exists col, In col cols /\ c = Some col.
Proof.
  induction cols as [|col rest IH]; intros value best alpha beta rs c v rs' H;
    simpl in H.
  - inversion H; auto.
  - destruct (child col alpha beta rs) as [[s rs1]| |]; try discriminate.
    assert (Hb : (if ext_ltb s value then Some col else best) = best
                 \/ (if ext_ltb s value then Some col else best) = Some col)
      by (destruct (ext_ltb s value); auto).
    destruct (ext_geb alpha _).
    + inversion H; subst. destruct Hb as [->| ->]; [auto|].
      right; exists col; split; [left|]; reflexivity.
    + apply IH in H as [->|(col' & Hin & ->)].
      * destruct Hb as [->| ->]; [auto|].
        right; exists col; split; [left|]; reflexivity.
      * right; exists col'; split; [right; exact Hin | reflexivity].
Qed.

(** From the sentinel the returned column is one of the columns visited,
    never the initial draw. *)
Lemma max_loop_first_col (col : nat) (rest : list nat) :
  fin_child child (col :: rest) ->
  forall best alpha beta rs c v rs',
    max_loop child (col :: rest) NegInf best alpha beta rs = Ok (c, v, rs') ->
    exists col', In col' (col :: rest) /\ c = Some col'.
Proof.
  intros Hf best alpha beta rs c v rs' H; simpl in H.
  destruct (child col alpha beta rs) as [[s rs1]| |] eqn:Ec; try discriminate.
  destruct (Hf col alpha beta rs s rs1 (or_introl eq_refl) Ec) as [z ->].
  simpl in H. destruct (ext_geb _ beta).
  - inversion H; subst. exists col; split; [left|]; reflexivity.
  - apply max_loop_col in H as [->|(col' & Hin & ->)].
    + exists col; split; [left|]; reflexivity.
    + exists col'; split; [right; exact Hin | reflexivity].
Qed.

Lemma min_loop_first_col (col : nat) (rest : list nat) :
  fin_child child (col :: rest) ->
  forall best alpha beta rs c v rs',
    min_loop child (col :: rest) PosInf best alpha beta rs = Ok (c, v, rs') ->
    exists col', In col' (col :: rest) /\ c = Some col'.
Proof.
  intros Hf best alpha beta rs c v rs' H; simpl in H.
  destruct (child col alpha beta rs) as [[s rs1]| |] eqn:Ec; try discriminate.
  destruct (Hf col alpha beta rs s rs1 (or_introl eq_refl) Ec) as [z ->].
  simpl in H. destruct (ext_geb alpha _).
  - inversion H; subst. exists col; split; [left|]; reflexivity.
  - apply min_loop_col in H as [->|(col' & Hin & ->)].
    + exists col; split; [left|]; reflexivity.
    + exists col'; split; [right; exact Hin | reflexivity].
Qed.

End LoopColumn.

(** At a node that is searched, the column returned is a legal one. *)
Lemma minimax_fuel_column {S : Type} (random_choice : S -> list nat -> nat * S)
    (fuel : nat) (b : board) (depth : Z) (alpha beta : ext) (mx : bool)
    (rs : S) (c : option nat) (v : ext) (rs' : S) :
  is_terminal b = false -> depth <> 0 ->
  minimax_fuel random_choice fuel b depth alpha beta mx rs = Ok (c, v, rs') ->
  exists col, In col (get_valid_columns b) /\ c = Some col.
Proof.
  intros Ht Hd H. destruct fuel as [|fuel]; [discriminate|]; simpl in H.
  rewrite Ht in H. destruct (Z.eqb_spec depth 0); [contradiction|]. simpl in H.
  destruct (get_valid_columns b) as [|col rest]; [discriminate|].
  destruct mx.
  - eapply max_loop_first_col; [apply child_score_fin | exact H].
  - eapply min_loop_first_col; [apply child_score_fin | exact H].
Qed.

(* ================================================================== *)
(** * The claims about the search *)

(** C1: on a terminal board the search returns exactly +100000 when the
    Engine side (AI) has a run, else -100000 when the opposing side has one,
    else 0, with no column and whatever the depth (also 0), the bounds and
    the side to move; the heuristic is not consulted. *)
Theorem minimax_terminal_score {S : Type}
    (random_choice : S -> list nat -> nat * S)
    (b : board) (depth : Z) (alpha beta : ext) (is_maximizing : bool) (rs : S) :
  is_terminal b = true ->
  minimax random_choice b depth alpha beta is_maximizing rs
  = Ok (None,
        Fin (if check_win b AI then 100000
             else if check_win b PLAYER then -100000
             else 0),
        rs).
Proof.
  intros Ht; unfold minimax; simpl. rewrite Ht, orb_true_r.
  destruct (check_win b AI); [|destruct (check_win b PLAYER)]; reflexivity.
Qed.

Lemma minimax_terminal_score_witness :
  is_terminal board_ai_wins = true
  /\ minimax counter_choice board_ai_wins 0 (Fin 5) (Fin 7) false 0%nat
     = Ok (None, Fin 100000, 0%nat).
Proof.
  split; [reflexivity|].
  apply (minimax_terminal_score counter_choice board_ai_wins 0 (Fin 5) (Fin 7)
           false 0%nat).
  reflexivity.
Defined.

(** C2: called with the bounds (-infinity, +infinity), the pruned search
    returns, and its value is the value of the exhaustive search of the same
    board, depth and side to move. *)
Theorem alpha_beta_same_value {S : Type}
    (random_choice : S -> list nat -> nat * S)
    (b : board) (depth : Z) (is_maximizing : bool) (rs : S) :
  wf_board b ->
  exists c v rs',
    minimax random_choice b depth NegInf PosInf is_maximizing rs = Ok (c, v, rs')
    /\ minimax_exhaustive b depth is_maximizing = Some v.
Proof.
  intros Hwf; unfold minimax, minimax_exhaustive.
  destruct (minimax_fuel_ab _ random_choice (Datatypes.S (count_empty b)) b depth
              NegInf PosInf is_maximizing rs Hwf (Nat.lt_succ_diag_r _) I)
    as (c & v & rs' & m & E1 & E2 & Hok).
  apply ab_ok_full in Hok; subst m.
  exists c, v, rs'; split; assumption.
Qed.

Lemma alpha_beta_same_value_witness :
  wf_board create_board
  /\ exists c v rs',
       minimax counter_choice create_board 2 NegInf PosInf true 0%nat
       = Ok (c, v, rs')
       /\ minimax_exhaustive create_board 2 true = Some v.
Proof.
  split; [apply wf_boardb_sound; reflexivity|].
  apply (alpha_beta_same_value counter_choice create_board 2 true 0%nat).
  apply wf_boardb_sound; reflexivity.
Defined.

(** C3, as the code has it: at a maximizing node that is searched (board
    not terminal, depth at least 1) and called with the initial bounds
    (-infinity, +infinity), the search returns the optimal value and, of the
    legal columns whose exhaustive value is that optimum, the one with the
    lowest index. *)
Theorem minimax_lowest_best_column {S : Type}
    (random_choice : S -> list nat -> nat * S)
    (b : board) (depth : Z) (rs : S) :
  wf_board b -> is_terminal b = false -> 1 <= depth ->
  exists c v rs',
    minimax random_choice b depth NegInf PosInf true rs = Ok (Some c, v, rs')
    /\ minimax_exhaustive b depth true = Some v
    /\ In c (get_valid_columns b)
    /\ child_value b depth c = Some v
    /\ forall c' m',
         In c' (get_valid_columns b) -> child_value b depth c' = Some m' ->
         ext_le m' v /\ (m' = v -> (c <= c')%nat).
Proof.
  intros Hwf Ht Hd.
  destruct (minimax_fuel_ab _ random_choice (Datatypes.S (count_empty b)) b depth
              NegInf PosInf true rs Hwf (Nat.lt_succ_diag_r _) I)
    as (c0 & v0 & rs0 & m & E0 & Ex & Hok).
  apply ab_ok_full in Hok; subst m.
  fold (minimax_exhaustive b depth true) in Ex.
  unfold minimax; simpl in E0 |- *.
  rewrite Ht in *. destruct (Z.eqb_spec depth 0); [lia|]. simpl in E0 |- *.
  pose proof (is_terminal_false_cols b Ht) as Hne.
  pose proof (get_valid_columns_sorted b) as Hsort.
  pose proof (child_score_ab random_choice (count_empty b) b (depth - 1) AI false
                Hwf (Nat.le_refl _) AI_not_EMPTY) as Hab.
  pose proof (fun col (H : In col (get_valid_columns b)) =>
                child_value_fuel b depth col Hwf H) as Hcv.
  destruct (get_valid_columns b) as [|col rest]; [congruence|].
  destruct (root_max_loop _ _ (col :: rest) Hab
              (child_score_fin random_choice _ b _ AI false _) Hsort
              [] NegInf (Some (fst (random_choice rs (col :: rest))))
              (snd (random_choice rs (col :: rest)))
              ltac:(intros ? ? []) ltac:(left; split; reflexivity)
              ltac:(discriminate))
    as (c & v & rs' & E & Hfb).
  simpl app in Hfb. apply (first_best_ext _ _ _ _ _ Hcv) in Hfb.
  rewrite E in E0; inversion E0; subst.
  destruct Hfb as (Hin & Hm & Hb).
  exists c, v0, rs0; repeat split; auto; apply (Hb c' m'); assumption.
Qed.

Lemma minimax_lowest_best_column_witness :
  wf_board create_board /\ is_terminal create_board = false /\ 1 <= 2
  /\ exists c v rs',
       minimax counter_choice create_board 2 NegInf PosInf true 0%nat
       = Ok (Some c, v, rs')
       /\ minimax_exhaustive create_board 2 true = Some v
       /\ In c (get_valid_columns create_board)
       /\ child_value create_board 2 c = Some v
       /\ forall c' m',
            In c' (get_valid_columns create_board) ->
            child_value create_board 2 c' = Some m' ->
            ext_le m' v /\ (m' = v -> (c <= c')%nat).
Proof.
  split; [apply wf_boardb_sound; reflexivity|].
  split; [reflexivity|]. split; [lia|].
  apply (minimax_lowest_best_column counter_choice create_board 2 0%nat).
  - apply wf_boardb_sound; reflexivity.
  - reflexivity.
  - lia.
Defined.

(** C3, as stated, fails at a node called with a narrower window: on the
    board below columns 2 and 4 both reach the optimum 9, and with the
    bounds (-infinity, 5) the loop stops at column 0, whose score 5 meets
    the upper bound. *)
Lemma narrow_window_stops_early :
  is_terminal board_two_moves = false
  /\ map (child_value board_two_moves 1) (get_valid_columns board_two_moves)
     = [Some (Fin 5); Some (Fin 7); Some (Fin 9); Some (Fin 6);
        Some (Fin 9); Some (Fin 7); Some (Fin 5)]
  /\ outcome (minimax counter_choice board_two_moves 1 NegInf (Fin 5) true 0%nat)
     = Ok (Some 0%nat, Fin 5)
  /\ outcome (minimax counter_choice board_two_moves 1 NegInf PosInf true 0%nat)
     = Ok (Some 2%nat, Fin 9).
Proof. repeat split; vm_compute; reflexivity. Qed.

(** C10: at a node that is searched (board not terminal, depth at least 1)
    the column and the value returned are those of a legal column and an
    integer, and they are the same for any two random sources and random
    states: the column drawn by [random.choice] is overwritten by the first
    column visited. *)
Theorem minimax_random_independent {S1 S2 : Type}
    (choice1 : S1 -> list nat -> nat * S1)
    (choice2 : S2 -> list nat -> nat * S2)
    (b : board) (depth : Z) (alpha beta : ext) (is_maximizing : bool)
    (rs1 : S1) (rs2 : S2) :
  wf_board b -> is_terminal b = false -> 1 <= depth ->
  (exists col z,
      In col (get_valid_columns b)
      /\ outcome (minimax choice1 b depth alpha beta is_maximizing rs1)
         = Ok (Some col, Fin z))
  /\ outcome (minimax choice1 b depth alpha beta is_maximizing rs1)
     = outcome (minimax choice2 b depth alpha beta is_maximizing rs2).
Proof.
  intros Hwf Ht Hd; split; [|apply minimax_fuel_indep].
  unfold minimax.
  destruct (minimax_fuel_total _ choice1 (Datatypes.S (count_empty b)) b depth
              alpha beta is_maximizing rs1 Hwf (Nat.lt_succ_diag_r _))
    as (c & v & rs' & E).
  destruct (minimax_fuel_fin _ _ _ _ _ _ _ _ _ _ _ _ E) as [z ->].
  assert (Hd0 : depth <> 0) by lia.
  destruct (minimax_fuel_column _ _ _ _ _ _ _ _ _ _ _ Ht Hd0 E)
    as (col & Hin & ->).
  exists col, z; split; [exact Hin|]. now rewrite E.
Qed.

Lemma minimax_random_independent_witness :
  wf_board create_board /\ is_terminal create_board = false /\ 1 <= 2
  /\ (exists col z,
         In col (get_valid_columns create_board)
         /\ outcome (minimax counter_choice create_board 2 (Fin 0) (Fin 1) true 0%nat)
            = Ok (Some col, Fin z))
  /\ outcome (minimax counter_choice create_board 2 (Fin 0) (Fin 1) true 0%nat)
     = outcome (minimax (fun (_ : unit) l => (last l O, tt)) create_board 2
                  (Fin 0) (Fin 1) true tt).
Proof.
  split; [apply wf_boardb_sound; reflexivity|].
  split; [reflexivity|]. split; [lia|].
  apply (minimax_random_independent counter_choice
           (fun (_ : unit) l => (last l O, tt)) create_board 2 (Fin 0) (Fin 1)
           true 0%nat tt).
  - apply wf_boardb_sound; reflexivity.
  - reflexivity.
  - lia.
Defined.

(* ------------------------------------------------------------------ *)
(** ** Depths that are not positive *)

Section LoopExt.

Context {S : Type}.
Variable child1 child2 : nat -> ext -> ext -> S -> result (ext * S).
Hypothesis child_eq : forall col a bt rs, child1 col a bt rs = child2 col a bt rs.

Lemma max_loop_ext (cols : list nat) :
  forall value best alpha beta rs,
    max_loop child1 cols value best alpha beta rs
    = max_loop child2 cols value best alpha beta rs.
Proof.
  induction cols as [|col rest IH]; intros; simpl; [reflexivity|].
  rewrite child_eq. destruct (child2 col alpha beta rs) as [[s rs1]| |]; auto.
  destruct (ext_geb _ beta); auto.
Qed.

Lemma min_loop_ext (cols : list nat) :
  forall value best alpha beta rs,
    min_loop child1 cols value best alpha beta rs
    = min_loop child2 cols value best alpha beta rs.
Proof.
  induction cols as [|col rest IH]; intros; simpl; [reflexivity|].
  rewrite child_eq. destruct (child2 col alpha beta rs) as [[s rs1]| |]; auto.
  destruct (ext_geb alpha _); auto.
Qed.

End LoopExt.

(** Below zero the depth never meets the horizon test [depth == 0]: every
    negative depth gives the same search, which stops at terminal boards
    only. *)
Lemma minimax_fuel_negative {S : Type}
    (random_choice : S -> list nat -> nat * S) (fuel : nat) :
  forall b d1 d2 alpha beta is_maximizing rs,
    d1 < 0 -> d2 < 0 ->
    minimax_fuel random_choice fuel b d1 alpha beta is_maximizing rs
    = minimax_fuel random_choice fuel b d2 alpha beta is_maximizing rs.
Proof.
  induction fuel as [|fuel IH]; intros b d1 d2 alpha beta mx rs H1 H2; simpl;
    [reflexivity|].
  destruct (Z.eqb_spec d1 0); [lia|]. destruct (Z.eqb_spec d2 0); [lia|].
  simpl. destruct (is_terminal b); [reflexivity|].
  destruct (get_valid_columns b) as [|col rest]; [reflexivity|].
  destruct mx; [apply max_loop_ext | apply min_loop_ext];
    intros c a bt r; unfold child_score;
    destruct (drop_piece b c _) as [[nb|]| |]; try reflexivity;
    rewrite (IH nb (d1 - 1) (d2 - 1)) by lia; reflexivity.
Qed.

(** C8, as the code has it: no depth is refused.  On a 6x7 board a depth
    that is not positive gives a normal result with an integer value; depth
    0 gives the leaf value of the board itself (terminal score, else the
    heuristic) with no column, and every negative depth gives the result of
    depth -1, a search cut at terminal boards only. *)
Theorem minimax_nonpositive_depth {S : Type}
    (random_choice : S -> list nat -> nat * S)
    (b : board) (depth : Z) (rs : S) :
  wf_board b -> depth <= 0 ->
  (exists c z rs', ai_move random_choice b depth rs = Ok (c, Fin z, rs'))
  /\ (depth = 0 ->
      ai_move random_choice b depth rs = Ok (None, Fin (leaf_value b), rs))
  /\ (depth < 0 ->
      ai_move random_choice b depth rs = ai_move random_choice b (-1) rs).
Proof.
  intros Hwf Hd; unfold ai_move, minimax; repeat split.
  - destruct (minimax_fuel_total _ random_choice (Datatypes.S (count_empty b)) b
                depth NegInf PosInf true rs Hwf (Nat.lt_succ_diag_r _))
      as (c & v & rs' & E).
    destruct (minimax_fuel_fin _ _ _ _ _ _ _ _ _ _ _ _ E) as [z ->].
    exists c, z, rs'; exact E.
  - intros ->; simpl; unfold leaf_value.
    destruct (is_terminal b);
      [destruct (check_win b AI); [|destruct (check_win b PLAYER)]|]; reflexivity.
  - intros Hneg. apply minimax_fuel_negative; lia.
Qed.

Lemma minimax_nonpositive_depth_witness :
  wf_board create_board /\ 0 <= 0
  /\ (exists c z rs', ai_move counter_choice create_board 0 0%nat = Ok (c, Fin z, rs'))
  /\ (0 = 0 ->
      ai_move counter_choice create_board 0 0%nat
      = Ok (None, Fin (leaf_value create_board), 0%nat))
  /\ (0 < 0 ->
      ai_move counter_choice create_board 0 0%nat
      = ai_move counter_choice create_board (-1) 0%nat).
Proof.
  split; [apply wf_boardb_sound; reflexivity|]. split; [lia|].
  apply (minimax_nonpositive_depth counter_choice create_board 0 0%nat).
  - apply wf_boardb_sound; reflexivity.
  - lia.
Defined.

(** C8, as stated, fails: with depth 0 on the empty board the search raises
    nothing and returns the heuristic score of the board. *)
Lemma invalid_depth_not_raised :
  ai_move counter_choice create_board 0 0%nat
  = Ok (None, Fin (score_position create_board AI), 0%nat)
  /\ forall e, ai_move counter_choice create_board 0 0%nat <> Raise e.
Proof. split; [reflexivity | intros e; vm_compute; discriminate]. Qed.

(** C9: on the empty board a depth-1 search as the Engine returns the
    center column, index 3, with value 3: after the Engine's move in column
    3 the heuristic is 3 (the center bonus), after a move in any other
    column it is 0. *)
Theorem empty_board_depth1_center {S : Type}
    (random_choice : S -> list nat -> nat * S) (rs : S) :
  (exists rs', ai_move random_choice create_board 1 rs = Ok (Some 3%nat, Fin 3, rs'))
  /\ get_valid_columns create_board = [0; 1; 2; 3; 4; 5; 6]%nat
  /\ map (fun col => match drop_piece create_board col AI with
                     | Ok (Some nb) => Some (score_position nb AI)
                     | _ => None
                     end) (get_valid_columns create_board)
     = [Some 0; Some 0; Some 0; Some 3; Some 0; Some 0; Some 0].
Proof.
  split; [|split; reflexivity].
  eexists. vm_compute. reflexivity.
Qed.

(* ================================================================== *)
(** * The claims about the board *)

Lemma drop_piece_inv (b : board) (col : nat) (piece : Z) (b' : board) :
  drop_piece b col piece = Ok (Some b') ->
  (col < COLS)%nat
  /\ exists r, (r < ROWS)%nat /\ cell b r col = EMPTY
               /\ (forall r', (r < r' < ROWS)%nat -> cell b r' col <> EMPTY)
               /\ b' = set_cell b r col piece.
Proof.
  unfold drop_piece, range. destruct (Nat.leb_spec COLS col) as [Hc|Hc]; [discriminate|].
  intros H.
  assert (Hs : drop_scan b col piece (rev (seq 0 ROWS)) = Some b') by congruence.
  split; [assumption|].
  pose proof (drop_scan_spec b col piece ROWS) as Hspec.
  rewrite Hs in Hspec. exact Hspec.
Qed.

Lemma drop_piece_full (b : board) (col : nat) (piece : Z) :
  drop_piece b col piece = Ok None ->
  forall r, (r < ROWS)%nat -> cell b r col <> EMPTY.
Proof.
  unfold drop_piece, range. destruct (Nat.leb_spec COLS col) as [Hc|Hc]; [discriminate|].
  intros H.
  assert (Hs : drop_scan b col piece (rev (seq 0 ROWS)) = None) by congruence.
  pose proof (drop_scan_spec b col piece ROWS) as Hspec.
  rewrite Hs in Hspec. exact Hspec.
Qed.

Lemma gravity_drop_piece (b : board) (col : nat) (piece : Z) (b' : board) :
  gravity b -> drop_piece b col piece = Ok (Some b') -> gravity b'.
Proof.
  intros Hg Hd. apply drop_piece_inv in Hd as (Hc & r & Hr & He & Hab & ->).
  intros r1 r2 c H12 H2 Hcc Hne.
  destruct (Nat.eq_dec c col) as [->|Hcol].
  - assert (Hr1 : cell b r1 col <> EMPTY -> (r < r1)%nat).
    { intros Hn. destruct (Nat.lt_ge_cases r r1) as [|Hge]; [assumption|].
      exfalso. destruct (Nat.eq_dec r1 r) as [->|]; [contradiction|].
      apply (Hg r1 r col); auto; lia. }
    destruct (Nat.eq_dec r1 r) as [->|Hn1].
    + rewrite cell_set_cell_other by (left; lia). apply Hab; lia.
    + rewrite cell_set_cell_other in Hne by (left; lia).
      specialize (Hr1 Hne).
      rewrite cell_set_cell_other by (left; lia). apply Hab; lia.
  - rewrite cell_set_cell_other in * by (right; lia).
    now apply (Hg r1 r2 c).
Qed.

Lemma cell_create_board (r c : nat) : cell create_board r c = EMPTY.
Proof.
  unfold cell, create_board; simpl repeat.
  do 6 (destruct r as [|r];
        [do 7 (destruct c as [|c]; [reflexivity|]); destruct c; reflexivity|]).
  destruct r; destruct c; reflexivity.
Qed.

Lemma gravity_create_board : gravity create_board.
Proof. intros r r' c _ _ _ Hne. now rewrite cell_create_board in Hne. Qed.

(** C7: every board reached from the empty board by moves has the gravity
    invariant, and a move keeps the invariant of any board that has it. *)
Theorem gravity_invariant :
  (forall b, reachable b -> gravity b)
  /\ (forall b col piece b',
        gravity b -> drop_piece b col piece = Ok (Some b') -> gravity b').
Proof.
  split.
  - intros b Hr; induction Hr as [|b col piece b' _ IH Hd].
    + apply gravity_create_board.
    + eapply gravity_drop_piece; eassumption.
  - intros b col piece b'; apply gravity_drop_piece.
Qed.

Lemma gravity_invariant_witness :
  reachable board_two_moves /\ gravity board_two_moves.
Proof.
  assert (Hr : reachable board_two_moves).
  { apply (reach_move _ 3%nat PLAYER _
             (reach_move _ 3%nat AI _ reach_empty eq_refl) eq_refl). }
  split; [exact Hr | apply (proj1 gravity_invariant _ Hr)].
Defined.

(* ------------------------------------------------------------------ *)
(** ** [drop_piece] on the store *)

Lemma drop_loop_heap_spec (h : heap) (bref col : nat) (piece : Z)
    (rows : list nat) :
  (bref < length h)%nat ->
  drop_loop_heap h bref col piece rows
  = match drop_scan (nth bref h []) col piece rows with
    | Some b' => (set_nth bref b' h, Some bref)
    | None => (h, None)
    end.
Proof.
  intros Hb; induction rows as [|r rest IH]; simpl; [reflexivity|].
  destruct (cell (nth bref h []) r col =? EMPTY); [reflexivity | exact IH].
Qed.

(** The stateful [drop_piece] returns what the pure one computes, in a new
    array, and leaves every array that existed as it was. *)
Lemma drop_piece_heap_pure (h : heap) (board_ref col : nat) (piece : Z) :
  (board_ref < length h)%nat ->
  let out := drop_piece_heap h board_ref col piece in
  (forall a, (a < length h)%nat -> nth a (fst out) [] = nth a h [])
  /\ match drop_piece (nth board_ref h []) col piece with
     | Ok (Some b') =>
         snd out = Ok (Some (length h)) /\ nth (length h) (fst out) [] = b'
     | Ok None => snd out = Ok None
     | Raise e => snd out = Raise e
     | OutOfFuel => False
     end.
Proof.
  intros Href out; subst out; unfold drop_piece_heap, drop_piece.
  destruct (COLS <=? col)%nat; cbv zeta; cbn [fst snd].
  - split; [|reflexivity]. intros a Ha. now rewrite app_nth1.
  - rewrite drop_loop_heap_spec by (rewrite length_app; simpl; lia).
    rewrite app_nth2, Nat.sub_diag by lia. cbn [nth].
    destruct (drop_scan (nth board_ref h []) col piece (rev (range ROWS)));
      cbn [fst snd].
    + split; [|split; [reflexivity|]].
      * intros a Ha. rewrite nth_set_nth_other by lia. now rewrite app_nth1.
      * apply nth_set_nth_same. rewrite length_app; simpl; lia.
    + split; [|reflexivity]. intros a Ha. now rewrite app_nth1.
Qed.

(** C4, as the code has it: [drop_piece] makes a copy and leaves the input
    array, and every other array, as it was.  When the column has no EMPTY
    cell it returns [None] and raises nothing; otherwise it returns the
    copy, in which the piece is in the lowest EMPTY row of the column and
    every other cell is the cell of the input. *)
Theorem drop_piece_heap_spec (h : heap) (board_ref col : nat) (piece : Z) :
  (board_ref < length h)%nat -> wf_board (nth board_ref h []) ->
  (col < COLS)%nat ->
  let b := nth board_ref h [] in
  let out := drop_piece_heap h board_ref col piece in
  (forall a, (a < length h)%nat -> nth a (fst out) [] = nth a h [])
  /\ ((forall r, (r < ROWS)%nat -> cell b r col <> EMPTY) -> snd out = Ok None)
  /\ match snd out with
     | Ok None =>
         drop_piece b col piece = Ok None
         /\ forall r, (r < ROWS)%nat -> cell b r col <> EMPTY
     | Ok (Some new_ref) =>
         new_ref = length h
         /\ exists r,
              (r < ROWS)%nat /\ cell b r col = EMPTY
              /\ (forall r', (r < r' < ROWS)%nat -> cell b r' col <> EMPTY)
              /\ drop_piece b col piece = Ok (Some (nth new_ref (fst out) []))
              /\ cell (nth new_ref (fst out) []) r col = piece
              /\ forall r' c',
                   r' <> r \/ c' <> col ->
                   cell (nth new_ref (fst out) []) r' c' = cell b r' c'
     | Raise _ => False
     | OutOfFuel => False
     end.
Proof.
  intros Href Hwf Hcol b out.
  destruct (drop_piece_heap_pure h board_ref col piece Href) as [Hkeep Hres].
  fold out in Hkeep, Hres. fold b in Hres.
  assert (Hmatch :
    match snd out with
    | Ok None =>
        drop_piece b col piece = Ok None
        /\ forall r, (r < ROWS)%nat -> cell b r col <> EMPTY
    | Ok (Some new_ref) =>
        new_ref = length h
        /\ exists r,
             (r < ROWS)%nat /\ cell b r col = EMPTY
             /\ (forall r', (r < r' < ROWS)%nat -> cell b r' col <> EMPTY)
             /\ drop_piece b col piece = Ok (Some (nth new_ref (fst out) []))
             /\ cell (nth new_ref (fst out) []) r col = piece
             /\ forall r' c',
                  r' <> r \/ c' <> col ->
                  cell (nth new_ref (fst out) []) r' c' = cell b r' c'
    | Raise _ => False
    | OutOfFuel => False
    end).
  { destruct (drop_piece b col piece) as [[b'|]|e|] eqn:Ed.
    - destruct Hres as [-> Hnew]. split; [reflexivity|].
      destruct (drop_piece_inv b col piece b' Ed) as (_ & r & Hr & He & Hab & Hb').
      exists r. rewrite Hnew. repeat split; auto; rewrite Hb'.
      + now apply cell_set_cell_same.
      + intros r' c' Hne. apply cell_set_cell_other.
        destruct Hne; [left | right]; congruence.
    - rewrite Hres. split; [reflexivity|]. now apply (drop_piece_full b col piece).
    - exfalso. unfold drop_piece in Ed.
      destruct (Nat.leb_spec COLS col); [lia | discriminate].
    - contradiction. }
  split; [exact Hkeep|]. split; [|exact Hmatch].
  intros Hfull. destruct (snd out) as [[new_ref|]| |]; try contradiction; auto.
  destruct Hmatch as (_ & r & Hr & He & _). exfalso. now apply (Hfull r).
Qed.

Lemma drop_piece_heap_spec_witness :
  (0 < length [create_board])%nat /\ wf_board (nth 0 [create_board] [])
  /\ (3 < COLS)%nat
  /\ snd (drop_piece_heap [create_board] 0 3 AI) = Ok (Some 1%nat)
  /\ nth 0 (fst (drop_piece_heap [create_board] 0 3 AI)) [] = create_board
  /\ cell (nth 1 (fst (drop_piece_heap [create_board] 0 3 AI)) []) 5 3 = AI.
Proof.
  split; [simpl; lia|]. split; [apply wf_boardb_sound; reflexivity|].
  split; [unfold COLS; lia|].
  pose proof (drop_piece_heap_spec [create_board] 0 3 AI
                ltac:(simpl; lia) ltac:(apply wf_boardb_sound; reflexivity)
                ltac:(unfold COLS; lia)) as H.
  split; [reflexivity|]. split; [apply (proj1 H); simpl; lia | reflexivity].
Defined.

(** C4, as stated, fails: on a full column [drop_piece] signals no error,
    it returns [None]. *)
Lemma column_full_returns_none :
  forallb (fun r => negb (cell board_col0_full r 0 =? EMPTY)) (range ROWS) = true
  /\ drop_piece board_col0_full 0 PLAYER = Ok None
  /\ snd (drop_piece_heap [board_col0_full] 0 0 PLAYER) = Ok None
  /\ forall e, drop_piece board_col0_full 0 PLAYER <> Raise e.
Proof. repeat split; try reflexivity. intros e; vm_compute; discriminate. Qed.

(* ================================================================== *)
(** * The claims about the evaluator *)

Lemma count_three (piece : Z) (window : list Z) :
  piece = PLAYER \/ piece = AI ->
  Forall (fun x => x = EMPTY \/ x = PLAYER \/ x = AI) window ->
  (count piece window + count (opponent piece) window + count EMPTY window
   = length window)%nat.
Proof.
  intros Hp Hw; induction Hw as [|x l Hx _ IH]; [reflexivity|].
  rewrite !count_cons; simpl length.
  unfold opponent, EMPTY, PLAYER, AI in *.
  destruct Hp as [-> | ->]; destruct Hx as [-> | [-> | ->]]; simpl in *; lia.
Qed.

(** C5: for a window of four valid cells and a side, with [p], [o], [e] the
    numbers of the side's, the opponent's and the EMPTY cells: the three sum
    to 4; [score_window] is 100 if p=4, else 5 if p=3 and e=1, else 2 if p=2
    and e=2, else -4 if o=3 and e=1, else 0; and no two of the four
    conditions hold together. *)
Theorem score_window_cases (window : list Z) (piece : Z) :
  length window = 4%nat ->
  piece = PLAYER \/ piece = AI ->
  Forall (fun x => x = EMPTY \/ x = PLAYER \/ x = AI) window ->
  let p := count piece window in
  let o := count (opponent piece) window in
  let e := count EMPTY window in
  (p + o + e = 4)%nat
  /\ score_window window piece = score_window_spec p o e
  /\ (score_window window piece = 100 <-> p = 4%nat)
  /\ (score_window window piece = 5 <-> p = 3%nat /\ e = 1%nat)
  /\ (score_window window piece = 2 <-> p = 2%nat /\ e = 2%nat)
  /\ (score_window window piece = -4 <-> o = 3%nat /\ e = 1%nat)
  /\ (score_window window piece = 0 <->
      ~ (p = 4%nat) /\ ~ (p = 3%nat /\ e = 1%nat)
      /\ ~ (p = 2%nat /\ e = 2%nat) /\ ~ (o = 3%nat /\ e = 1%nat))
  /\ ~ (p = 4%nat /\ p = 3%nat /\ e = 1%nat)
  /\ ~ (p = 4%nat /\ p = 2%nat /\ e = 2%nat)
  /\ ~ (p = 4%nat /\ o = 3%nat /\ e = 1%nat)
  /\ ~ ((p = 3%nat /\ e = 1%nat) /\ p = 2%nat /\ e = 2%nat)
  /\ ~ ((p = 3%nat /\ e = 1%nat) /\ o = 3%nat /\ e = 1%nat)
  /\ ~ ((p = 2%nat /\ e = 2%nat) /\ o = 3%nat /\ e = 1%nat).
Proof.
  intros Hlen Hp Hw p o e.
  assert (Hsum : (p + o + e = 4)%nat)
    by (subst p o e; rewrite count_three; assumption).
  assert (Hdef : score_window window piece = score_window_spec p o e)
    by reflexivity.
  split; [exact Hsum|]. split; [exact Hdef|].
  rewrite Hdef; unfold score_window_spec.
  destruct (Nat.eqb_spec p 4), (Nat.eqb_spec p 3), (Nat.eqb_spec p 2),
           (Nat.eqb_spec e 1), (Nat.eqb_spec e 2), (Nat.eqb_spec o 3);
    simpl; repeat split; intros; try lia.
Qed.

Lemma score_window_cases_witness :
  length [AI; AI; EMPTY; AI] = 4%nat
  /\ (AI = PLAYER \/ AI = AI)
  /\ Forall (fun x => x = EMPTY \/ x = PLAYER \/ x = AI) [AI; AI; EMPTY; AI]
  /\ score_window [AI; AI; EMPTY; AI] AI = 5.
Proof.
  split; [reflexivity|]. split; [right; reflexivity|].
  assert (Hw : Forall (fun x => x = EMPTY \/ x = PLAYER \/ x = AI)
                 [AI; AI; EMPTY; AI])
    by (repeat constructor; auto).
  split; [exact Hw|].
  pose proof (score_window_cases [AI; AI; EMPTY; AI] AI eq_refl
                (or_intror eq_refl) Hw) as H.
  apply (proj1 (proj2 H)).
Defined.

Lemma all_windows_complete (r c : nat) (d : Z * Z) :
  In d directions -> valid_window r c d = true ->
  In (window_cells r c d) all_windows.
Proof.
  intros Hd Hv. unfold all_windows.
  assert (Hrc : (r < ROWS)%nat /\ (c < COLS)%nat).
  { unfold valid_window, window_cells in Hv. simpl in Hv.
    apply andb_true_iff in Hv as [Hv _]. unfold in_board in Hv; simpl in Hv.
    rewrite !andb_true_iff in Hv. destruct Hv as [[[_ H1] _] H2].
    apply Z.ltb_lt in H1, H2. unfold ROWS, COLS in *. lia. }
  apply in_flat_map; exists r; split; [apply in_seq; simpl; lia|].
  apply in_flat_map; exists c; split; [apply in_seq; simpl; lia|].
  apply in_flat_map; exists d; split; [exact Hd|].
  rewrite Hv; left; reflexivity.
Qed.

Lemma all_windows_NoDup : NoDup all_windows.
Proof.
  assert (H : nodup (list_eq_dec cell_eq_dec) all_windows = all_windows)
    by (vm_compute; reflexivity).
  rewrite <- H. apply NoDup_nodup.
Qed.

Lemma subsetb_complete (w1 w2 : list (Z * Z)) :
  (forall x, In x w1 -> In x w2) -> subsetb w1 w2 = true.
Proof.
  intros H. apply forallb_forall; intros x Hx.
  apply existsb_exists; exists x; split; [apply H, Hx|].
  destruct (cell_eq_dec x x); congruence.
Qed.

(** Two valid windows never cover the same cells. *)
Lemma all_windows_distinct_cells (w1 w2 : list (Z * Z)) :
  In w1 all_windows -> In w2 all_windows ->
  (forall x, In x w1 -> In x w2) -> w1 = w2.
Proof.
  intros H1 H2 Hsub.
  assert (Hall : forallb (fun a =>
            forallb (fun b' =>
              implb (subsetb a b')
                    (if list_eq_dec cell_eq_dec a b' then true else false))
              all_windows) all_windows = true)
    by (vm_compute; reflexivity).
  rewrite forallb_forall in Hall. specialize (Hall w1 H1).
  rewrite forallb_forall in Hall. specialize (Hall w2 H2).
  rewrite (subsetb_complete _ _ Hsub) in Hall. simpl in Hall.
  destruct (list_eq_dec cell_eq_dec w1 w2); [assumption | discriminate].
Qed.

(** C6: [score_position] is the sum of [score_window] over the valid
    windows, plus 3 for each of the side's pieces in the center column
    (column 3).  The valid windows are the 69 windows of four cells in the
    four orientations that lie on the board: each is in the list, and the
    list has no repetition, nor two windows on the same cells. *)
Theorem score_position_sum (b : board) (piece : Z) :
  score_position b piece = score_position_spec b piece
  /\ (forall r c d,
        In d directions -> valid_window r c d = true ->
        In (window_cells r c d) all_windows)
  /\ (forall w, In w all_windows ->
        exists r c d, In d directions /\ valid_window r c d = true
                      /\ w = window_cells r c d)
  /\ NoDup all_windows
  /\ (forall w1 w2, In w1 all_windows -> In w2 all_windows ->
        (forall x, In x w1 -> In x w2) -> w1 = w2)
  /\ length all_windows = 69%nat
  /\ (COLS / 2 = 3)%nat.
Proof.
  split; [|split; [exact all_windows_complete|split; [|split;
            [exact all_windows_NoDup
            |split; [exact all_windows_distinct_cells | split; reflexivity]]]]].
  - unfold score_position_spec.
    set (ws := all_windows). vm_compute in ws. subst ws.
    cbv -[score_window cell count Z.add Z.mul Z.of_nat].
    lia.
  - intros w Hw. unfold all_windows in Hw.
    apply in_flat_map in Hw as (r & _ & Hw).
    apply in_flat_map in Hw as (c & _ & Hw).
    apply in_flat_map in Hw as (d & Hd & Hw).
    exists r, c, d. destruct (valid_window r c d) eqn:Ev; [|contradiction].
    destruct Hw as [<-|[]]. auto.
Qed.

(* ================================================================== *)
(** * Further properties of the board *)

Lemma window_values_horizontal (b : board) (r c : nat) :
  window_values b (window_cells r c (0, 1))
  = map (fun i => cell b r (c + i)%nat) (range 4).
Proof.
  unfold window_values, window_cells, range; simpl.
  repeat f_equal; lia.
Qed.

Lemma window_values_vertical (b : board) (r c : nat) :
  window_values b (window_cells r c (1, 0))
  = map (fun i => cell b (r + i)%nat c) (range 4).
Proof.
  unfold window_values, window_cells, range; simpl.
  repeat f_equal; lia.
Qed.

Lemma window_values_diag_down (b : board) (r c : nat) :
  window_values b (window_cells r c (1, 1))
  = map (fun i => cell b (r + i)%nat (c + i)%nat) (range 4).
Proof.
  unfold window_values, window_cells, range; simpl.
  repeat f_equal; lia.
Qed.

Lemma window_values_diag_up (b : board) (r c : nat) :
  (3 <= c)%nat ->
  window_values b (window_cells r c (1, -1))
  = map (fun i => cell b (r + i)%nat (c - i)%nat) (range 4).
Proof.
  intros Hc; unfold window_values, window_cells, range; simpl.
  repeat f_equal; lia.
Qed.

Lemma valid_window_bounds (r c : nat) (d : Z * Z) :
  In d directions ->
  (valid_window r c d = true <->
   (r + 3 * Z.to_nat (fst d) < ROWS)%nat /\ (c < COLS)%nat
   /\ (0 <= Z.of_nat c + 3 * snd d < Z.of_nat COLS)).
Proof.
  unfold directions, valid_window, window_cells, in_board, ROWS, COLS.
  intros [<-|[<-|[<-|[<-|[]]]]]; simpl;
    rewrite ?andb_true_iff, ?Z.leb_le, ?Z.ltb_lt; lia.
Qed.

Lemma all4_Forall (b : board) (piece : Z) (f : nat -> Z) :
  all4 (fun i => f i =? piece) = true
  <-> Forall (fun x => x = piece) (map f (range 4)).
Proof.
  unfold all4. rewrite forallb_forall, Forall_forall. split.
  - intros H x Hx. apply in_map_iff in Hx as (i & <- & Hi).
    apply Z.eqb_eq, H, Hi.
  - intros H i Hi. apply Z.eqb_eq, H, in_map, Hi.
Qed.

Lemma all_windows_inv (w : list (Z * Z)) :
  In w all_windows ->
  exists r c d, In d directions /\ valid_window r c d = true
                /\ w = window_cells r c d.
Proof.
  intros Hw. unfold all_windows in Hw.
  apply in_flat_map in Hw as (r & _ & Hw).
  apply in_flat_map in Hw as (c & _ & Hw).
  apply in_flat_map in Hw as (d & Hd & Hw).
  exists r, c, d. destruct (valid_window r c d) eqn:Ev; [|contradiction].
  destruct Hw as [<-|[]]. auto.
Qed.

(** [check_win] finds a run exactly when one of the valid windows, in one
    of the four orientations, holds the piece in its four cells. *)
Theorem check_win_windows (b : board) (piece : Z) :
  check_win b piece = true
  <-> exists w, In w all_windows
                /\ Forall (fun x => x = piece) (window_values b w).
Proof.
  split.
  - unfold check_win; intros H.
    apply existsb_exists in H as (r & Hr & H).
    apply existsb_exists in H as (c & Hc & H).
    apply in_seq in Hr, Hc.
    rewrite !orb_true_iff, !andb_true_iff, !(all4_Forall b) in H.
    rewrite ?Nat.ltb_lt, ?Nat.leb_le in H.
    destruct H as [[[[H1 H]|[H1 H]]|[[H1 H2] H]]|[[H1 H2] H]].
    + exists (window_cells r c (0, 1)); split.
      * apply all_windows_complete; [simpl; auto|].
        apply valid_window_bounds; [simpl; auto|]. simpl.
        unfold ROWS, COLS in *; lia.
      * now rewrite window_values_horizontal.
    + exists (window_cells r c (1, 0)); split.
      * apply all_windows_complete; [simpl; auto|].
        apply valid_window_bounds; [simpl; auto|]. simpl.
        unfold ROWS, COLS in *; lia.
      * now rewrite window_values_vertical.
    + exists (window_cells r c (1, 1)); split.
      * apply all_windows_complete; [simpl; auto|].
        apply valid_window_bounds; [simpl; auto 6|]. simpl.
        unfold ROWS, COLS in *; lia.
      * now rewrite window_values_diag_down.
    + exists (window_cells r c (1, -1)); split.
      * apply all_windows_complete; [simpl; auto 6|].
        apply valid_window_bounds; [simpl; auto 6|]. simpl.
        unfold ROWS, COLS in *; lia.
      * now rewrite window_values_diag_up.
  - intros (w & Hw & Hall).
    apply all_windows_inv in Hw as (r & c & d & Hd & Hv & ->).
    apply (valid_window_bounds r c d Hd) in Hv.
    assert (Hr : In r (range ROWS)) by (apply in_seq; lia).
    assert (Hc : In c (range COLS)) by (apply in_seq; lia).
    unfold check_win.
    apply existsb_exists; exists r; split; [exact Hr|].
    apply existsb_exists; exists c; split; [exact Hc|].
    rewrite !orb_true_iff, !andb_true_iff, !(all4_Forall b).
    rewrite ?Nat.ltb_lt, ?Nat.leb_le.
    unfold directions, ROWS, COLS in *.
    destruct Hd as [<-|[<-|[<-|[<-|[]]]]]; simpl in Hv.
    + left; left; left. rewrite window_values_horizontal in Hall.
      split; [lia | exact Hall].
    + left; left; right. rewrite window_values_vertical in Hall.
      split; [lia | exact Hall].
    + left; right. rewrite window_values_diag_down in Hall.
      split; [lia | exact Hall].
    + right. rewrite window_values_diag_up in Hall by lia.
      split; [lia | exact Hall].
Qed.

(* ------------------------------------------------------------------ *)
(** ** What a move changes *)

Lemma count_set_nth_gen (x : Z) (i : nat) (v : Z) (l : list Z) :
  (i < length l)%nat ->
  (count x (set_nth i v l) + (if (nth i l 0 =? x)%Z then 1 else 0)
   = count x l + (if (v =? x)%Z then 1 else 0))%nat.
Proof.
  revert i; induction l as [|h t IH]; intros [|i] Hi; simpl in *; try lia.
  - rewrite !count_cons. lia.
  - rewrite !count_cons. specialize (IH i ltac:(lia)). lia.
Qed.

Lemma count_concat_set_nth_gen (x : Z) (r : nat) (row' : list Z) (b : board) :
  (r < length b)%nat ->
  (count x (concat (set_nth r row' b)) + count x (nth r b [])
   = count x (concat b) + count x row')%nat.
Proof.
  revert r; induction b as [|h t IH]; intros [|r] Hr; simpl in *; try lia.
  - rewrite !count_app; lia.
  - rewrite !count_app. specialize (IH r ltac:(lia)). lia.
Qed.

Lemma count_set_cell (x : Z) (b : board) (r c : nat) (v : Z) :
  wf_board b -> (r < ROWS)%nat -> (c < COLS)%nat ->
  (count x (concat (set_cell b r c v)) + (if (cell b r c =? x)%Z then 1 else 0)
   = count x (concat b) + (if (v =? x)%Z then 1 else 0))%nat.
Proof.
  intros Hwf Hr Hc; unfold set_cell.
  pose proof (count_concat_set_nth_gen x r (set_nth c v (nth r b [])) b
                ltac:(destruct Hwf; lia)) as H.
  pose proof (count_set_nth_gen x c v (nth r b [])
                ltac:(rewrite wf_board_row; auto)) as H'.
  unfold cell. lia.
Qed.

(** A move keeps the 6x7 shape and changes one cell: one EMPTY cell less,
    one more cell of the piece, and as many cells of every other value. *)
Theorem drop_piece_counts (b : board) (col : nat) (piece : Z) (b' : board) :
  wf_board b -> piece <> EMPTY ->
  drop_piece b col piece = Ok (Some b') ->
  wf_board b'
  /\ S (count_empty b') = count_empty b
  /\ count piece (concat b') = S (count piece (concat b))
  /\ forall x, x <> EMPTY -> x <> piece ->
               count x (concat b') = count x (concat b).
Proof.
  intros Hwf Hp Hd.
  apply drop_piece_inv in Hd as (Hc & r & Hr & He & _ & ->).
  split; [now apply set_cell_wf|].
  split; [now apply count_empty_set_cell|]. split.
  - pose proof (count_set_cell piece b r col piece Hwf Hr Hc) as H.
    rewrite He, Z.eqb_refl in H.
    destruct (Z.eqb_spec EMPTY piece); [congruence | lia].
  - intros x Hx Hxp.
    pose proof (count_set_cell x b r col piece Hwf Hr Hc) as H.
    rewrite He in H.
    destruct (Z.eqb_spec EMPTY x); [congruence|].
    destruct (Z.eqb_spec piece x); [congruence | lia].
Qed.

Lemma drop_piece_counts_witness :
  wf_board create_board /\ AI <> EMPTY
  /\ drop_piece create_board 3 AI
     = Ok (Some [[0;0;0;0;0;0;0]; [0;0;0;0;0;0;0]; [0;0;0;0;0;0;0];
                 [0;0;0;0;0;0;0]; [0;0;0;0;0;0;0]; [0;0;0;2;0;0;0]])
  /\ S (count_empty [[0;0;0;0;0;0;0]; [0;0;0;0;0;0;0]; [0;0;0;0;0;0;0];
                     [0;0;0;0;0;0;0]; [0;0;0;0;0;0;0]; [0;0;0;2;0;0;0]])
     = count_empty create_board.
Proof.
  split; [apply wf_boardb_sound; reflexivity|].
  split; [discriminate|]. split; [reflexivity|].
  apply (drop_piece_counts create_board 3 AI _
           ltac:(apply wf_boardb_sound; reflexivity) ltac:(discriminate) eq_refl).
Defined.

(** The cells a move leaves alone, read through "is this cell [p]". *)
Lemma drop_piece_cell_other (b : board) (col : nat) (q : Z) (b' : board)
    (p : Z) (r' c' : nat) :
  wf_board b -> p <> EMPTY -> p <> q ->
  drop_piece b col q = Ok (Some b') ->
  (cell b' r' c' = p <-> cell b r' c' = p).
Proof.
  intros Hwf Hp Hpq Hd.
  apply drop_piece_inv in Hd as (Hc & r & Hr & He & _ & ->).
  destruct (Nat.eq_dec r r') as [<-|Hn].
  - destruct (Nat.eq_dec col c') as [<-|Hn'].
    + rewrite cell_set_cell_same by assumption. rewrite He.
      split; intros; congruence.
    + now rewrite cell_set_cell_other by (right; exact Hn').
  - now rewrite cell_set_cell_other by (left; exact Hn).
Qed.

Lemma drop_piece_cell_kept (b : board) (col : nat) (q : Z) (b' : board)
    (p : Z) (r' c' : nat) :
  p <> EMPTY ->
  drop_piece b col q = Ok (Some b') ->
  cell b r' c' = p -> cell b' r' c' = p.
Proof.
  intros Hp Hd Hcell.
  apply drop_piece_inv in Hd as (Hc & r & Hr & He & _ & ->).
  destruct (Nat.eq_dec r r') as [<-|Hn].
  - destruct (Nat.eq_dec col c') as [<-|Hn']; [congruence|].
    now rewrite cell_set_cell_other by (right; exact Hn').
  - now rewrite cell_set_cell_other by (left; exact Hn).
Qed.

Lemma window_values_Forall (b : board) (p : Z) (w : list (Z * Z)) :
  Forall (fun x => x = p) (window_values b w)
  <-> forall rc, In rc w -> cell b (Z.to_nat (fst rc)) (Z.to_nat (snd rc)) = p.
Proof.
  unfold window_values; rewrite Forall_forall; split.
  - intros H rc Hrc. apply H, in_map_iff. exists rc; auto.
  - intros H x Hx. apply in_map_iff in Hx as (rc & <- & Hrc). now apply H.
Qed.

Lemma check_win_kept (b : board) (col : nat) (q : Z) (b' : board) (p : Z) :
  p <> EMPTY -> drop_piece b col q = Ok (Some b') ->
  check_win b p = true -> check_win b' p = true.
Proof.
  intros Hp Hd. rewrite !check_win_windows. intros (w & Hw & Hall).
  exists w; split; [exact Hw|].
  rewrite window_values_Forall in *. intros rc Hrc.
  eapply drop_piece_cell_kept; eauto.
Qed.

Lemma check_win_other_side (b : board) (col : nat) (q : Z) (b' : board) (p : Z) :
  wf_board b -> p <> EMPTY -> p <> q ->
  drop_piece b col q = Ok (Some b') ->
  check_win b' p = check_win b p.
Proof.
  intros Hwf Hp Hpq Hd.
  assert (H : check_win b' p = true <-> check_win b p = true).
  { rewrite !check_win_windows.
    split; intros (w & Hw & Hall); exists w; (split; [exact Hw|]);
      rewrite window_values_Forall in *; intros rc Hrc.
    - apply (proj1 (drop_piece_cell_other b col q b' p _ _ Hwf Hp Hpq Hd)).
      now apply Hall.
    - apply (proj2 (drop_piece_cell_other b col q b' p _ _ Hwf Hp Hpq Hd)).
      now apply Hall. }
  destruct (check_win b' p), (check_win b p); intuition congruence.
Qed.

(** A move never removes a run, and never makes or removes a run of another
    piece than the one played. *)
Theorem check_win_after_move (b : board) (col : nat) (q : Z) (b' : board)
    (p : Z) :
  wf_board b -> p <> EMPTY ->
  drop_piece b col q = Ok (Some b') ->
  (check_win b p = true -> check_win b' p = true)
  /\ (p <> q -> check_win b' p = check_win b p).
Proof.
  intros Hwf Hp Hd; split.
  - now apply (check_win_kept b col q b' p).
  - intros Hpq. now apply (check_win_other_side b col q b' p).
Qed.

Lemma check_win_after_move_witness :
  wf_board board_two_moves /\ PLAYER <> EMPTY
  /\ drop_piece board_two_moves 0 AI
     = Ok (Some [[0;0;0;0;0;0;0]; [0;0;0;0;0;0;0]; [0;0;0;0;0;0;0];
                 [0;0;0;0;0;0;0]; [0;0;0;1;0;0;0]; [2;0;0;2;0;0;0]])
  /\ (PLAYER <> AI ->
      check_win [[0;0;0;0;0;0;0]; [0;0;0;0;0;0;0]; [0;0;0;0;0;0;0];
                 [0;0;0;0;0;0;0]; [0;0;0;1;0;0;0]; [2;0;0;2;0;0;0]] PLAYER
      = check_win board_two_moves PLAYER).
Proof.
  split; [apply wf_boardb_sound; reflexivity|].
  split; [discriminate|]. split; [reflexivity|].
  apply (check_win_after_move board_two_moves 0 AI _ PLAYER
           ltac:(apply wf_boardb_sound; reflexivity) ltac:(discriminate) eq_refl).
Defined.

(* ------------------------------------------------------------------ *)
(** ** Legal columns on boards with gravity *)

(** On a board with gravity the test of the top cell is the test of the
    whole column: the legal columns are exactly those where [drop_piece]
    places the piece (elsewhere it returns [None] or raises). *)
Theorem valid_column_iff_drop (b : board) (col : nat) (piece : Z) :
  gravity b ->
  (In col (get_valid_columns b)
   <-> exists b', drop_piece b col piece = Ok (Some b')).
Proof.
  intros Hg; split.
  - intros Hin. apply get_valid_columns_In in Hin as [Hc He].
    unfold drop_piece, range. destruct (Nat.leb_spec COLS col); [lia|].
    pose proof (drop_scan_spec b col piece ROWS) as Hs.
    destruct (drop_scan b col piece (rev (seq 0 ROWS))) as [b'|]; [eauto|].
    exfalso. apply (Hs O); [unfold ROWS; lia | exact He].
  - intros (b' & Hd).
    apply drop_piece_inv in Hd as (Hc & r & Hr & He & _).
    apply get_valid_columns_In; split; [exact Hc|].
    destruct (Z.eq_dec (cell b 0 col) EMPTY) as [|Hne]; [assumption|].
    destruct r as [|r]; [assumption|].
    exfalso. apply (Hg O (S r) col); auto; lia.
Qed.

Lemma valid_column_iff_drop_witness :
  gravity board_two_moves
  /\ (In 3%nat (get_valid_columns board_two_moves)
      <-> exists b', drop_piece board_two_moves 3 AI = Ok (Some b')).
Proof.
  assert (Hg : gravity board_two_moves).
  { apply (gravity_drop_piece _ 3%nat PLAYER _
             (gravity_drop_piece _ 3%nat AI _ gravity_create_board eq_refl)
             eq_refl). }
  split; [exact Hg|].
  apply (valid_column_iff_drop board_two_moves 3 AI Hg).
Defined.

Lemma count_zero_not_In (x : Z) (l : list Z) :
  count x l = 0%nat <-> ~ In x l.
Proof.
  induction l as [|h t IH]; [simpl; tauto|].
  rewrite count_cons; simpl. destruct (Z.eqb_spec h x).
  - split; [lia | intros H; exfalso; apply H; auto].
  - rewrite Nat.add_0_l, IH. split; [intros H [?|?]; auto | tauto].
Qed.

Lemma count_empty_zero_cells (b : board) :
  wf_board b ->
  (count_empty b = 0%nat
   <-> forall r c, (r < ROWS)%nat -> (c < COLS)%nat -> cell b r c <> EMPTY).
Proof.
  intros Hwf; unfold count_empty. rewrite count_zero_not_In. split.
  - intros Hn r c Hr Hc He. apply Hn, in_concat.
    exists (nth r b []); split.
    + apply nth_In; destruct Hwf; lia.
    + rewrite <- He. apply nth_In. rewrite wf_board_row; auto.
  - intros Hcells Hin. apply in_concat in Hin as (row & Hrow & Hx).
    destruct (In_nth _ _ [] Hrow) as (r & Hr & <-).
    destruct (In_nth _ _ 0 Hx) as (c & Hc & He).
    assert (Hr' : (r < ROWS)%nat) by (destruct Hwf; lia).
    rewrite wf_board_row in Hc by assumption.
    now apply (Hcells r c Hr' Hc).
Qed.

Lemma no_valid_column_full (b : board) :
  wf_board b -> gravity b -> get_valid_columns b = [] -> count_empty b = 0%nat.
Proof.
  intros Hwf Hg Hnil. apply (count_empty_zero_cells b Hwf). intros r c Hr Hc.
  assert (Htop : cell b 0 c <> EMPTY).
  { intros He.
    assert (Hin : In c (get_valid_columns b))
      by (apply get_valid_columns_In; auto).
    rewrite Hnil in Hin; exact Hin. }
  destruct r as [|r]; [exact Htop|].
  apply (Hg O (S r) c); auto; lia.
Qed.

(** On a 6x7 board with gravity there is no legal column exactly when no
    cell is EMPTY. *)
Theorem no_valid_column_iff_full (b : board) :
  wf_board b -> gravity b ->
  (get_valid_columns b = [] <-> count_empty b = 0%nat).
Proof.
  intros Hwf Hg. split; [now apply no_valid_column_full|].
  rewrite (count_empty_zero_cells b Hwf). intros Hcells.
  destruct (get_valid_columns b) as [|c rest] eqn:Ev; [reflexivity|].
  exfalso.
  assert (Hin : In c (get_valid_columns b)) by (rewrite Ev; left; reflexivity).
  apply get_valid_columns_In in Hin as [Hc He].
  apply (Hcells O c); auto. unfold ROWS; lia.
Qed.

Lemma no_valid_column_iff_full_witness :
  wf_board create_board /\ gravity create_board
  /\ (get_valid_columns create_board = [] <-> count_empty create_board = 0%nat).
Proof.
  split; [apply wf_boardb_sound; reflexivity|].
  split; [exact gravity_create_board|].
  apply (no_valid_column_iff_full create_board
           ltac:(apply wf_boardb_sound; reflexivity) gravity_create_board).
Defined.

(* ================================================================== *)
(** * Further properties of the evaluator *)

Lemma score_window_range (window : list Z) (piece : Z) :
  -4 <= score_window window piece <= 100.
Proof.
  unfold score_window.
  destruct (_ =? 4)%nat; [lia|].
  destruct (_ && _); [lia|]. destruct (_ && _); [lia|].
  destruct (_ && _); lia.
Qed.

Lemma score_position_unfold (b : board) (piece : Z) :
  score_position b piece = score_position_spec b piece.
Proof.
  unfold score_position_spec.
  set (ws := all_windows). vm_compute in ws. subst ws.
  cbv -[score_window cell count Z.add Z.mul Z.of_nat].
  lia.
Qed.

Lemma zsum_map_bounds {A : Type} (f : A -> Z) (lo hi : Z) (l : list A) :
  (forall x, lo <= f x <= hi) ->
  Z.of_nat (length l) * lo <= zsum (map f l) <= Z.of_nat (length l) * hi.
Proof.
  intros Hf; induction l as [|x t IH]; [simpl; lia|].
  simpl length; simpl map; simpl zsum. specialize (Hf x). lia.
Qed.

Lemma count_le_length (x : Z) (l : list Z) : (count x l <= length l)%nat.
Proof. unfold count. apply filter_length_le. Qed.

(** The heuristic stays far inside the two win scores: every window gives
    between -4 and 100, there are 69 of them, and the center bonus is at
    most 18. *)
Theorem score_position_range (b : board) (piece : Z) :
  -276 <= score_position b piece <= 6918
  /\ -100000 < score_position b piece < 100000.
Proof.
  rewrite score_position_unfold; unfold score_position_spec.
  pose proof (zsum_map_bounds
                (fun w => score_window (window_values b w) piece) (-4) 100
                all_windows
                (fun w => score_window_range (window_values b w) piece)) as H.
  assert (Hlen : length all_windows = 69%nat) by reflexivity.
  rewrite Hlen in H.
  pose proof (count_le_length piece (map (fun r => cell b r 3) (range ROWS))) as Hc.
  rewrite length_map in Hc. unfold range in Hc. rewrite length_seq in Hc.
  unfold ROWS in Hc. unfold range, ROWS. lia.
Qed.

(* ================================================================== *)
(** * Further properties of the search *)

Section LoopPred.

Context {S : Type}.
Variable P : ext -> Prop.
Hypothesis P_fin : forall v, P v -> is_fin v.
Variable child : nat -> ext -> ext -> S -> result (ext * S).

Lemma pred_child_tail (col : nat) (rest : list nat) :
  pred_child P child (col :: rest) -> pred_child P child rest.
Proof. intros H ? ? ? ? ? ? Hin; eapply H; right; exact Hin. Qed.

Lemma max_loop_pred (cols : list nat) :
  pred_child P child cols ->
  forall value best alpha beta rs c v rs',
    P value ->
    max_loop child cols value best alpha beta rs = Ok (c, v, rs') -> P v.
Proof.
  induction cols as [|col rest IH]; intros Hc value best alpha beta rs c v rs' Hv H;
    simpl in H.
  - now inversion H; subst.
  - destruct (child col alpha beta rs) as [[s rs1]| |] eqn:Ec; try discriminate.
    assert (Hs : P s) by (eapply Hc; [left; reflexivity | exact Ec]).
    assert (Hv' : P (if ext_gtb s value then s else value))
      by (destruct (ext_gtb s value); assumption).
    destruct (ext_geb _ beta).
    + now inversion H; subst.
    + eapply IH; [exact (pred_child_tail _ _ Hc)|exact Hv'|exact H].
Qed.

Lemma min_loop_pred (cols : list nat) :
  pred_child P child cols ->
  forall value best alpha beta rs c v rs',
    P value ->
    min_loop child cols value best alpha beta rs = Ok (c, v, rs') -> P v.
Proof.
  induction cols as [|col rest IH]; intros Hc value best alpha beta rs c v rs' Hv H;
    simpl in H.
  - now inversion H; subst.
  - destruct (child col alpha beta rs) as [[s rs1]| |] eqn:Ec; try discriminate.
    assert (Hs : P s) by (eapply Hc; [left; reflexivity | exact Ec]).
    assert (Hv' : P (if ext_ltb s value then s else value))
      by (destruct (ext_ltb s value); assumption).
    destruct (ext_geb alpha _).
    + now inversion H; subst.
    + eapply IH; [exact (pred_child_tail _ _ Hc)|exact Hv'|exact H].
Qed.

Lemma max_loop_first_pred (col : nat) (rest : list nat) :
  pred_child P child (col :: rest) ->
  forall best alpha beta rs c v rs',
    max_loop child (col :: rest) NegInf best alpha beta rs = Ok (c, v, rs') ->
    P v.
Proof.
  intros Hc best alpha beta rs c v rs' H; simpl in H.
  destruct (child col alpha beta rs) as [[s rs1]| |] eqn:Ec; try discriminate.
  assert (Hs : P s) by (eapply Hc; [left; reflexivity | exact Ec]).
  destruct (P_fin s Hs) as [z ->]; simpl in H.
  destruct (ext_geb _ beta).
  - now inversion H; subst.
  - eapply (max_loop_pred rest); [exact (pred_child_tail _ _ Hc)|exact Hs|exact H].
Qed.

Lemma min_loop_first_pred (col : nat) (rest : list nat) :
  pred_child P child (col :: rest) ->
  forall best alpha beta rs c v rs',
    min_loop child (col :: rest) PosInf best alpha beta rs = Ok (c, v, rs') ->
    P v.
Proof.
  intros Hc best alpha beta rs c v rs' H; simpl in H.
  destruct (child col alpha beta rs) as [[s rs1]| |] eqn:Ec; try discriminate.
  assert (Hs : P s) by (eapply Hc; [left; reflexivity | exact Ec]).
  destruct (P_fin s Hs) as [z ->]; simpl in H.
  destruct (ext_geb alpha _).
  - now inversion H; subst.
  - eapply (min_loop_pred rest); [exact (pred_child_tail _ _ Hc)|exact Hs|exact H].
Qed.

End LoopPred.

Lemma in_range_fin (v : ext) : in_range v -> is_fin v.
Proof. intros (z & -> & _); eexists; reflexivity. Qed.


(** Every value the search returns lies between the two win scores. *)
Lemma minimax_fuel_range {S : Type} (random_choice : S -> list nat -> nat * S)
    (fuel : nat) :
  forall b depth alpha beta is_maximizing rs c v rs',
    minimax_fuel random_choice fuel b depth alpha beta is_maximizing rs
    = Ok (c, v, rs') ->
    in_range v.
Proof.
  induction fuel as [|fuel IH]; intros b depth alpha beta mx rs c v rs' H;
    simpl in H; [discriminate|].
  destruct ((depth =? 0) || is_terminal b).
  - pose proof (score_position_range b AI).
    destruct (is_terminal b);
      [destruct (check_win b AI); [|destruct (check_win b PLAYER)]|];
      inversion H; subst; eexists; (split; [reflexivity | lia]).
  - assert (Hchild : forall piece mx' cols,
              pred_child in_range
                (child_score
                   (fun nb a bt r =>
                      minimax_fuel random_choice fuel nb (depth - 1) a bt mx' r)
                   b piece) cols).
    { intros piece mx' cols col a bt r s r' _ Hs. unfold child_score in Hs.
      destruct (drop_piece b col piece) as [[nb|]| |]; try discriminate.
      destruct (minimax_fuel random_choice fuel nb (depth - 1) a bt mx' r)
        as [[[c' v'] r'']| |] eqn:E; try discriminate.
      inversion Hs; subst. eapply IH; exact E. }
    destruct (get_valid_columns b) as [|col rest]; [discriminate|].
    destruct mx.
    + eapply (max_loop_first_pred in_range in_range_fin); [apply Hchild | exact H].
    + eapply (min_loop_first_pred in_range in_range_fin); [apply Hchild | exact H].
Qed.

(** On a 6x7 board the search always returns: it raises nothing, whatever
    the depth, the bounds, the side to move and the random source.  Its value
    is an integer between -100000 and 100000; at a leaf (depth 0 or terminal
    board) there is no column, elsewhere the column is a legal one. *)
Theorem minimax_returns {S : Type} (random_choice : S -> list nat -> nat * S)
    (b : board) (depth : Z) (alpha beta : ext) (is_maximizing : bool) (rs : S) :
  wf_board b ->
  exists c z rs',
    minimax random_choice b depth alpha beta is_maximizing rs = Ok (c, Fin z, rs')
    /\ -100000 <= z <= 100000
    /\ (depth = 0 \/ is_terminal b = true -> c = None /\ rs' = rs)
    /\ (depth <> 0 -> is_terminal b = false ->
        exists col, c = Some col /\ In col (get_valid_columns b)).
Proof.
  intros Hwf; unfold minimax.
  destruct (minimax_fuel_total _ random_choice (Datatypes.S (count_empty b)) b depth
              alpha beta is_maximizing rs Hwf (Nat.lt_succ_diag_r _))
    as (c & v & rs' & E).
  destruct (minimax_fuel_range _ _ _ _ _ _ _ _ _ _ _ E) as (z & -> & Hz).
  exists c, z, rs'; split; [exact E|]. split; [exact Hz|]. split.
  - intros Hleaf. simpl in E.
    assert (Hb : (depth =? 0) || is_terminal b = true).
    { destruct Hleaf as [-> | ->]; [reflexivity | apply orb_true_r]. }
    rewrite Hb in E.
    destruct (is_terminal b);
      [destruct (check_win b AI); [|destruct (check_win b PLAYER)]|];
      inversion E; auto.
  - intros Hd Ht.
    destruct (minimax_fuel_column _ _ _ _ _ _ _ _ _ _ _ Ht Hd E) as (col & Hin & ->).
    exists col; auto.
Qed.

Lemma minimax_returns_witness :
  wf_board board_two_moves
  /\ exists c z rs',
       minimax counter_choice board_two_moves 2 (Fin 0) (Fin 9) false 4%nat
       = Ok (c, Fin z, rs')
       /\ -100000 <= z <= 100000
       /\ (2 = 0 \/ is_terminal board_two_moves = true -> c = None /\ rs' = 4%nat)
       /\ (2 <> 0 -> is_terminal board_two_moves = false ->
           exists col, c = Some col /\ In col (get_valid_columns board_two_moves)).
Proof.
  split; [apply wf_boardb_sound; reflexivity|].
  apply (minimax_returns counter_choice board_two_moves 2 (Fin 0) (Fin 9) false
           4%nat).
  apply wf_boardb_sound; reflexivity.
Defined.

(** Alpha-beta with any window [alpha < beta]: a result strictly inside the
    window is the exhaustive value; a result at or below [alpha] is an upper
    bound of it, a result at or above [beta] a lower bound. *)
Theorem minimax_window {S : Type} (random_choice : S -> list nat -> nat * S)
    (b : board) (depth : Z) (alpha beta : ext) (is_maximizing : bool) (rs : S) :
  wf_board b -> ext_lt alpha beta ->
  exists c v rs' m,
    minimax random_choice b depth alpha beta is_maximizing rs = Ok (c, v, rs')
    /\ minimax_exhaustive b depth is_maximizing = Some m
    /\ (ext_le v alpha -> ext_le m v)
    /\ (ext_lt alpha v -> ext_lt v beta -> m = v)
    /\ (ext_le beta v -> ext_le v m).
Proof.
  intros Hwf Hlt; unfold minimax, minimax_exhaustive.
  destruct (minimax_fuel_ab _ random_choice (Datatypes.S (count_empty b)) b depth
              alpha beta is_maximizing rs Hwf (Nat.lt_succ_diag_r _) Hlt)
    as (c & v & rs' & m & E1 & E2 & Hok).
  exists c, v, rs', m. split; [exact E1|]. split; [exact E2 | exact Hok].
Qed.

Lemma minimax_window_witness :
  wf_board board_two_moves /\ ext_lt NegInf (Fin 5)
  /\ exists c v rs' m,
       minimax counter_choice board_two_moves 1 NegInf (Fin 5) true 0%nat
       = Ok (c, v, rs')
       /\ minimax_exhaustive board_two_moves 1 true = Some m
       /\ (ext_le v NegInf -> ext_le m v)
       /\ (ext_lt NegInf v -> ext_lt v (Fin 5) -> m = v)
       /\ (ext_le (Fin 5) v -> ext_le v m).
Proof.
  split; [apply wf_boardb_sound; reflexivity|]. split; [exact I|].
  apply (minimax_window counter_choice board_two_moves 1 NegInf (Fin 5) true 0%nat).
  - apply wf_boardb_sound; reflexivity.
  - exact I.
Defined.

Section LoopExtIn.

Context {S : Type}.
Variable child1 child2 : nat -> ext -> ext -> S -> result (ext * S).

Lemma max_loop_ext_in (cols : list nat) :
  (forall col a bt rs, In col cols -> child1 col a bt rs = child2 col a bt rs) ->
  forall value best alpha beta rs,
    max_loop child1 cols value best alpha beta rs
    = max_loop child2 cols value best alpha beta rs.
Proof.
  induction cols as [|col rest IH]; intros Heq value best alpha beta rs; simpl;
    [reflexivity|].
  rewrite (Heq col alpha beta rs (or_introl eq_refl)).
  destruct (child2 col alpha beta rs) as [[s rs1]| |]; auto.
  destruct (ext_geb _ beta); auto.
  apply IH. intros; apply Heq; right; assumption.
Qed.

Lemma min_loop_ext_in (cols : list nat) :
  (forall col a bt rs, In col cols -> child1 col a bt rs = child2 col a bt rs) ->
  forall value best alpha beta rs,
    min_loop child1 cols value best alpha beta rs
    = min_loop child2 cols value best alpha beta rs.
Proof.
  induction cols as [|col rest IH]; intros Heq value best alpha beta rs; simpl;
    [reflexivity|].
  rewrite (Heq col alpha beta rs (or_introl eq_refl)).
  destruct (child2 col alpha beta rs) as [[s rs1]| |]; auto.
  destruct (ext_geb alpha _); auto.
  apply IH. intros; apply Heq; right; assumption.
Qed.

End LoopExtIn.

Lemma full_board_terminal (b : board) :
  wf_board b -> count_empty b = 0%nat -> is_terminal b = true.
Proof.
  intros Hwf H0. unfold is_terminal.
  assert (Hnil : get_valid_columns b = []).
  { destruct (get_valid_columns b) as [|c rest] eqn:Ev; [reflexivity|].
    exfalso.
    assert (Hin : In c (get_valid_columns b)) by (rewrite Ev; left; reflexivity).
    apply get_valid_columns_In in Hin as [Hc He].
    apply (proj1 (count_empty_zero_cells b Hwf) H0 O c); auto.
    unfold ROWS; lia. }
  rewrite Hnil; simpl. apply orb_true_r.
Qed.

(** Depths that cannot be used up give one and the same search: with a
    negative depth, or a depth of at least the number of EMPTY cells, the
    horizon is never met before the game ends, and the result is the same. *)
Theorem minimax_deep_enough {S : Type} (random_choice : S -> list nat -> nat * S)
    (b : board) (d1 d2 : Z) (alpha beta : ext) (is_maximizing : bool) (rs : S) :
  wf_board b -> unbounded_depth b d1 -> unbounded_depth b d2 ->
  minimax random_choice b d1 alpha beta is_maximizing rs
  = minimax random_choice b d2 alpha beta is_maximizing rs.
Proof.
  intros Hwf0 Hd1 Hd2; unfold minimax.
  generalize (Datatypes.S (count_empty b)); intros fuel.
  revert b d1 d2 alpha beta is_maximizing rs Hwf0 Hd1 Hd2.
  induction fuel as [|fuel IH]; intros b d1 d2 alpha beta mx rs Hwf H1 H2; simpl;
    [reflexivity|].
  destruct (is_terminal b) eqn:Ht; [rewrite !orb_true_r; reflexivity|].
  assert (Hpos : (0 < count_empty b)%nat).
  { destruct (count_empty b) eqn:E; [|lia].
    rewrite (full_board_terminal b Hwf E) in Ht; discriminate. }
  unfold unbounded_depth in H1, H2.
  destruct (Z.eqb_spec d1 0); [lia|]. destruct (Z.eqb_spec d2 0); [lia|].
  simpl.
  assert (Hchild : forall piece mx' col a bt r,
            piece <> EMPTY -> In col (get_valid_columns b) ->
            child_score
              (fun nb a bt r => minimax_fuel random_choice fuel nb (d1 - 1) a bt mx' r)
              b piece col a bt r
            = child_score
                (fun nb a bt r => minimax_fuel random_choice fuel nb (d2 - 1) a bt mx' r)
                b piece col a bt r).
  { intros piece mx' col a bt r Hp Hin. unfold child_score.
    destruct (drop_piece_valid b col piece Hwf Hin Hp) as (nb & -> & Hwf' & Hc).
    rewrite (IH nb (d1 - 1) (d2 - 1)); [reflexivity | exact Hwf' | |];
      unfold unbounded_depth; lia. }
  destruct (get_valid_columns b) as [|col rest]; [reflexivity|].
  destruct mx; [apply max_loop_ext_in | apply min_loop_ext_in];
    intros; apply Hchild; auto; discriminate.
Qed.

Lemma minimax_deep_enough_witness :
  wf_board board_two_moves
  /\ unbounded_depth board_two_moves 40 /\ unbounded_depth board_two_moves (-3)
  /\ minimax counter_choice board_two_moves 40 NegInf PosInf true 0%nat
     = minimax counter_choice board_two_moves (-3) NegInf PosInf true 0%nat.
Proof.
  assert (Hwf : wf_board board_two_moves) by (apply wf_boardb_sound; reflexivity).
  assert (H1 : unbounded_depth board_two_moves 40) by (right; vm_compute; discriminate).
  assert (H2 : unbounded_depth board_two_moves (-3)) by (left; lia).
  split; [exact Hwf|]. split; [exact H1|]. split; [exact H2|].
  apply (minimax_deep_enough counter_choice board_two_moves 40 (-3) NegInf PosInf
           true 0%nat Hwf H1 H2).
Defined.

(* ------------------------------------------------------------------ *)
(** ** A win in one move *)

(** The root call of [ai_move]: the column returned is the first legal
    column whose exhaustive value is the largest. *)
Lemma root_call_first_best {S : Type} (random_choice : S -> list nat -> nat * S)
    (b : board) (depth : Z) (rs : S) :
  wf_board b -> is_terminal b = false -> depth <> 0 ->
  exists c v rs',
    minimax random_choice b depth NegInf PosInf true rs = Ok (Some c, v, rs')
    /\ first_best (child_value b depth) (get_valid_columns b) c v.
Proof.
  intros Hwf Ht Hd. unfold minimax; simpl.
  rewrite Ht. destruct (Z.eqb_spec depth 0); [contradiction|]. simpl.
  pose proof (is_terminal_false_cols b Ht) as Hne.
  pose proof (get_valid_columns_sorted b) as Hsort.
  pose proof (child_score_ab random_choice (count_empty b) b (depth - 1) AI false
                Hwf (Nat.le_refl _) AI_not_EMPTY) as Hab.
  pose proof (fun col (H : In col (get_valid_columns b)) =>
                child_value_fuel b depth col Hwf H) as Hcv.
  destruct (get_valid_columns b) as [|col rest]; [congruence|].
  destruct (root_max_loop _ _ (col :: rest) Hab
              (child_score_fin random_choice _ b _ AI false _) Hsort
              [] NegInf (Some (fst (random_choice rs (col :: rest))))
              (snd (random_choice rs (col :: rest)))
              ltac:(intros ? ? []) ltac:(left; split; reflexivity)
              ltac:(discriminate))
    as (c & v & rs' & E & Hfb).
  simpl app in Hfb. apply (first_best_ext _ _ _ _ _ Hcv) in Hfb.
  exists c, v, rs'; split; assumption.
Qed.

Lemma leaf_value_win (b : board) :
  leaf_value b = 100000 <-> check_win b AI = true.
Proof.
  unfold leaf_value, is_terminal. pose proof (score_position_range b AI).
  destruct (check_win b AI); simpl.
  - rewrite orb_true_r; simpl. tauto.
  - destruct (check_win b PLAYER); simpl; [split; [lia | discriminate]|].
    destruct (_ =? 0)%nat; split; try lia; discriminate.
Qed.

Lemma child_value_depth1 (b : board) (col : nat) (nb : board) :
  drop_piece b col AI = Ok (Some nb) ->
  child_value b 1 col = Some (Fin (leaf_value nb)).
Proof.
  intros Hd; unfold child_value, exhaustive_child; rewrite Hd. reflexivity.
Qed.

Lemma child_value_win (b : board) (depth : Z) (col : nat) (nb : board) :
  drop_piece b col AI = Ok (Some nb) -> check_win nb AI = true ->
  child_value b depth col = Some (Fin 100000).
Proof.
  intros Hd Hw; unfold child_value, exhaustive_child; rewrite Hd.
  unfold minimax_exhaustive; simpl.
  assert (Ht : is_terminal nb = true)
    by (unfold is_terminal; rewrite Hw; rewrite orb_true_r; reflexivity).
  rewrite Ht, orb_true_r. unfold leaf_value. now rewrite Ht, Hw.
Qed.

(** When a legal column completes a run of the Engine, [ai_move] at any
    depth of 1 or more returns the value 100000 and a legal column of index
    at most that one; at depth 1 the column returned is itself a winning
    move, the lowest-indexed one. *)
Theorem ai_move_takes_win {S : Type} (random_choice : S -> list nat -> nat * S)
    (b : board) (depth : Z) (rs : S) (col : nat) (nb : board) :
  wf_board b -> is_terminal b = false -> 1 <= depth ->
  drop_piece b col AI = Ok (Some nb) -> In col (get_valid_columns b) ->
  check_win nb AI = true ->
  exists c rs',
    ai_move random_choice b depth rs = Ok (Some c, Fin 100000, rs')
    /\ In c (get_valid_columns b) /\ (c <= col)%nat
    /\ (depth = 1 ->
        exists nb', drop_piece b c AI = Ok (Some nb')
                    /\ check_win nb' AI = true).
Proof.
  intros Hwf Ht Hd Hdrop Hin Hwin. unfold ai_move.
  destruct (root_call_first_best random_choice b depth rs Hwf Ht ltac:(lia))
    as (c & v & rs' & E & Hc & Hm & Hb).
  pose proof (child_value_win b depth col nb Hdrop Hwin) as Hcol.
  destruct (Hb col (Fin 100000) Hin Hcol) as [Hle Htie].
  assert (Hv : v = Fin 100000).
  { unfold minimax in E.
    destruct (minimax_fuel_range _ _ _ _ _ _ _ _ _ _ _ E) as (z & -> & Hz).
    simpl in Hle. f_equal; lia. }
  subst v. exists c, rs'. split; [exact E|]. split; [exact Hc|].
  split; [apply Htie; reflexivity|].
  intros ->.
  destruct (drop_piece_valid b c AI Hwf Hc AI_not_EMPTY) as (nb' & Hd' & _).
  exists nb'; split; [exact Hd'|].
  rewrite (child_value_depth1 b c nb' Hd') in Hm.
  apply leaf_value_win. congruence.
Qed.

Lemma ai_move_takes_win_witness :
  wf_board board_ai_three /\ is_terminal board_ai_three = false /\ 1 <= 3
  /\ drop_piece board_ai_three 3 AI = Ok (Some board_ai_wins)
  /\ In 3%nat (get_valid_columns board_ai_three)
  /\ check_win board_ai_wins AI = true
  /\ exists c rs',
       ai_move counter_choice board_ai_three 3 0%nat = Ok (Some c, Fin 100000, rs')
       /\ In c (get_valid_columns board_ai_three) /\ (c <= 3)%nat
       /\ (3 = 1 ->
           exists nb', drop_piece board_ai_three c AI = Ok (Some nb')
                       /\ check_win nb' AI = true).
Proof.
  assert (Hwf : wf_board board_ai_three) by (apply wf_boardb_sound; reflexivity).
  assert (Hin : In 3%nat (get_valid_columns board_ai_three))
    by (vm_compute; auto).
  split; [exact Hwf|]. split; [reflexivity|]. split; [lia|].
  split; [reflexivity|]. split; [exact Hin|]. split; [reflexivity|].
  apply (ai_move_takes_win counter_choice board_ai_three 3 0%nat 3 board_ai_wins
           Hwf eq_refl ltac:(lia) eq_refl Hin eq_refl).
Defined.

(* ================================================================== *)
(** * The AI battle *)

Lemma minimax_full_window {S : Type} (random_choice : S -> list nat -> nat * S)
    (b : board) (depth : Z) (is_maximizing : bool) (rs : S) :
  wf_board b ->
  exists c z rs',
    minimax random_choice b depth NegInf PosInf is_maximizing rs = Ok (c, Fin z, rs')
    /\ minimax_exhaustive b depth is_maximizing = Some (Fin z).
Proof.
  intros Hwf; unfold minimax, minimax_exhaustive.
  destruct (minimax_fuel_ab _ random_choice (Datatypes.S (count_empty b)) b depth
              NegInf PosInf is_maximizing rs Hwf (Nat.lt_succ_diag_r _) I)
    as (c & v & rs' & m & E1 & E2 & Hok).
  apply ab_ok_full in Hok; subst m.
  destruct (minimax_fuel_fin _ _ _ _ _ _ _ _ _ _ _ _ E1) as [z ->].
  exists c, z, rs'; split; assumption.
Qed.

Section BattleFacts.

Context {S : Type}.
Variable random_choice : S -> list nat -> nat * S.

(** The loop of the first AI: [done] are the columns already visited. *)
Lemma ai1_loop_least (b : board) (depth_1 : Z) (cols : list nat) :
  wf_board b ->
  (forall c, In c cols -> In c (get_valid_columns b)) ->
  StronglySorted lt cols ->
  forall done best_col best_score rs,
    (forall d c, In d done -> In c cols -> (d < c)%nat) ->
    (done = [] /\ best_col = None /\ best_score = NegInf)
    \/ (exists c0 z0, best_col = Some c0 /\ best_score = Fin (- z0)
                      /\ first_least (red_child_value b depth_1) done c0 z0) ->
    done ++ cols <> [] ->
    exists c z rs',
      ai1_loop random_choice b depth_1 cols best_col best_score rs
      = Ok (Some c, Fin (- z), rs')
      /\ first_least (red_child_value b depth_1) (done ++ cols) c z.
Proof.
  intros Hwf. induction cols as [|col rest IH];
    intros Hval Hsort done best_col best_score rs Hlt Hinv Hne.
  - rewrite app_nil_r in *.
    destruct Hinv as [[-> _]|(c0 & z0 & -> & -> & Hfl)]; [congruence|].
    simpl; eauto.
  - inversion Hsort as [|? ? Hsort' Hall]; subst.
    rewrite Forall_forall in Hall.
    destruct (drop_piece_valid b col PLAYER Hwf (Hval col (or_introl eq_refl))
                PLAYER_not_EMPTY) as (nb & Hd & Hwf' & _).
    destruct (minimax_full_window random_choice nb (depth_1 - 1) true rs Hwf')
      as (c1 & z & rs1 & E & Ex).
    assert (Hm : red_child_value b depth_1 col = Some (Fin z))
      by (unfold red_child_value; rewrite Hd; exact Ex).
    simpl; rewrite Hd, E.
    assert (Hlt' : forall d c, In d (done ++ [col]) -> In c rest -> (d < c)%nat).
    { intros d c Hd' Hc. apply in_app_or in Hd' as [Hd'|[<-|[]]].
      - apply Hlt; [exact Hd' | right; exact Hc].
      - apply Hall, Hc. }
    assert (Hne' : (done ++ [col]) ++ rest <> []) by (destruct done; discriminate).
    replace (done ++ col :: rest) with ((done ++ [col]) ++ rest)
      by (rewrite <- app_assoc; reflexivity).
    assert (Hval' : forall c, In c rest -> In c (get_valid_columns b))
      by (intros c Hc; apply Hval; right; exact Hc).
    destruct Hinv as [(-> & -> & ->)|(c0 & z0 & -> & -> & Hin0 & Hm0 & Hb)].
    + (* first column: it replaces the sentinel *)
      simpl.
      apply (IH Hval' Hsort' [col] (Some col) (Fin (- z)) rs1 Hlt'); auto.
      right; exists col, z; split; [reflexivity|]; split; [reflexivity|].
      split; [left; reflexivity|]. split; [exact Hm|].
      intros c' m' [<-|[]] Hm'. rewrite Hm in Hm'; inversion Hm'; subst.
      split; [lia | intros _; lia].
    + unfold ext_gtb; simpl. destruct (Z.ltb_spec (- z0) (- z)) as [Hbetter|Hnot].
      * (* strictly smaller value: the column becomes the best one *)
        apply (IH Hval' Hsort' (done ++ [col]) (Some col) (Fin (- z)) rs1 Hlt'); auto.
        right; exists col, z; split; [reflexivity|]; split; [reflexivity|].
        split; [apply in_or_app; right; left; reflexivity|]. split; [exact Hm|].
        intros c' m' Hc' Hm'. apply in_app_or in Hc' as [Hc'|[<-|[]]].
        -- destruct (Hb c' m' Hc' Hm') as [Hle _]. split; [lia | intros ->; lia].
        -- rewrite Hm in Hm'; inversion Hm'; subst. split; [lia | intros _; lia].
      * (* no strict improvement: the running best stays *)
        apply (IH Hval' Hsort' (done ++ [col]) (Some c0) (Fin (- z0)) rs1 Hlt'); auto.
        right; exists c0, z0; split; [reflexivity|]; split; [reflexivity|].
        split; [apply in_or_app; left; exact Hin0|]. split; [exact Hm0|].
        intros c' m' Hc' Hm'. apply in_app_or in Hc' as [Hc'|[<-|[]]].
        -- apply Hb; assumption.
        -- rewrite Hm in Hm'; inversion Hm'; subst. split; [lia|].
           intros _. apply Nat.lt_le_incl, Hlt; [exact Hin0 | left; reflexivity].
Qed.

(** The first AI of the battle, which plays PLAYER, picks the legal column
    whose position has the smallest exhaustive value for the Engine at
    [depth_1 - 1] plies, the lowest-indexed one among equals. *)
Theorem ai1_select_least (b : board) (depth_1 : Z) (rs : S) :
  wf_board b -> get_valid_columns b <> [] ->
  exists c z rs',
    ai1_select random_choice b depth_1 rs = Ok (Some c, Fin (- z), rs')
    /\ In c (get_valid_columns b)
    /\ red_child_value b depth_1 c = Some (Fin z)
    /\ forall c' m',
         In c' (get_valid_columns b) ->
         red_child_value b depth_1 c' = Some (Fin m') ->
         z <= m' /\ (m' = z -> (c <= c')%nat).
Proof.
  intros Hwf Hne. unfold ai1_select.
  destruct (ai1_loop_least b depth_1 (get_valid_columns b) Hwf
              (fun c H => H) (get_valid_columns_sorted b) [] None NegInf rs
              ltac:(intros ? ? []) ltac:(left; auto) Hne)
    as (c & z & rs' & E & Hin & Hm & Hb).
  exists c, z, rs'. split; [exact E|]. split; [exact Hin|]. split; [exact Hm|].
  exact Hb.
Qed.

End BattleFacts.

Lemma ai1_select_least_witness :
  wf_board board_two_moves /\ get_valid_columns board_two_moves <> []
  /\ exists c z rs',
       ai1_select counter_choice board_two_moves 2 0%nat
       = Ok (Some c, Fin (- z), rs')
       /\ In c (get_valid_columns board_two_moves)
       /\ red_child_value board_two_moves 2 c = Some (Fin z)
       /\ forall c' m',
            In c' (get_valid_columns board_two_moves) ->
            red_child_value board_two_moves 2 c' = Some (Fin m') ->
            z <= m' /\ (m' = z -> (c <= c')%nat).
Proof.
  split; [apply wf_boardb_sound; reflexivity|]. split; [discriminate|].
  apply (ai1_select_least counter_choice board_two_moves 2 0%nat).
  - apply wf_boardb_sound; reflexivity.
  - discriminate.
Defined.

Lemma no_valid_column_nil (b : board) :
  no_valid_column b = true <-> get_valid_columns b = [].
Proof.
  unfold no_valid_column. destruct (get_valid_columns b);
    split; intros; congruence.
Qed.

Lemma is_terminal_false_iff (b : board) :
  is_terminal b = false
  <-> check_win b PLAYER = false /\ check_win b AI = false
      /\ no_valid_column b = false.
Proof.
  unfold is_terminal, no_valid_column.
  destruct (check_win b PLAYER), (check_win b AI), (get_valid_columns b);
    simpl; intuition congruence.
Qed.

Section BattleRuns.

Context {S : Type}.
Variable random_choice : S -> list nat -> nat * S.
Variable depth_1 depth_2 : Z.
Hypothesis depth_2_not_0 : depth_2 <> 0.

Lemma ai_vs_ai_loop_finishes (fuel : nat) :
  forall b move_count rs,
    wf_board b -> gravity b -> is_terminal b = false ->
    (count_empty b <= 2 * fuel)%nat ->
    exists v n b' rs',
      ai_vs_ai_loop random_choice fuel depth_1 depth_2 b move_count rs
      = Finished v n b' rs'
      /\ wf_board b' /\ gravity b'
      /\ (n + count_empty b' = move_count + count_empty b)%nat
      /\ verdict_ok v b'.
Proof.
  induction fuel as [|fuel IH]; intros b moves rs Hwf Hg Ht Hf.
  - assert (H0 : count_empty b = 0%nat) by lia.
    rewrite (full_board_terminal b Hwf H0) in Ht; discriminate.
  - pose proof (proj1 (is_terminal_false_iff b) Ht) as (HwP & HwA & Hnv).
    pose proof (is_terminal_false_cols b Ht) as Hne.
    simpl. unfold ai1_select.
    destruct (ai1_loop_least random_choice b depth_1 (get_valid_columns b) Hwf
                (fun c H => H) (get_valid_columns_sorted b) [] None NegInf rs
                ltac:(intros ? ? []) ltac:(left; auto) Hne)
      as (c & z & rs1 & -> & Hin & _).
    simpl app in Hin.
    destruct (drop_piece_valid b c PLAYER Hwf Hin PLAYER_not_EMPTY)
      as (b1 & Hd1 & Hwf1 & Hc1).
    rewrite Hd1.
    pose proof (gravity_drop_piece b c PLAYER b1 Hg Hd1) as Hg1.
    assert (HwA1 : check_win b1 AI = false).
    { rewrite (check_win_other_side b c PLAYER b1 AI Hwf); auto; discriminate. }
    destruct (check_win b1 PLAYER) eqn:HwP1.
    { exists RedWins, (Datatypes.S moves), b1, rs1.
      split; [reflexivity|]. split; [assumption|]. split; [assumption|].
      split; [lia | split; assumption]. }
    destruct (no_valid_column b1) eqn:Hnv1.
    { exists Draw, (Datatypes.S moves), b1, rs1.
      split; [reflexivity|]. split; [assumption|]. split; [assumption|].
      split; [lia|]. split; [assumption|]. split; [assumption|].
      apply no_valid_column_full; auto. now apply no_valid_column_nil. }
    assert (Ht1 : is_terminal b1 = false) by (apply is_terminal_false_iff; auto).
    unfold ai_move, minimax.
    destruct (minimax_fuel_total _ random_choice (Datatypes.S (count_empty b1)) b1
                depth_2 NegInf PosInf true rs1 Hwf1 (Nat.lt_succ_diag_r _))
      as (c2 & v2 & rs2 & E2).
    destruct (minimax_fuel_column _ _ _ _ _ _ _ _ _ _ _ Ht1 depth_2_not_0 E2)
      as (col2 & Hin2 & ->).
    rewrite E2.
    destruct (drop_piece_valid b1 col2 AI Hwf1 Hin2 AI_not_EMPTY)
      as (b2 & Hd2 & Hwf2 & Hc2).
    rewrite Hd2.
    pose proof (gravity_drop_piece b1 col2 AI b2 Hg1 Hd2) as Hg2.
    assert (HwP2 : check_win b2 PLAYER = false).
    { rewrite (check_win_other_side b1 col2 AI b2 PLAYER Hwf1); auto; discriminate. }
    destruct (check_win b2 AI) eqn:HwA2.
    { exists YellowWins, (Datatypes.S (Datatypes.S moves)), b2, rs2.
      split; [reflexivity|]. split; [assumption|]. split; [assumption|].
      split; [lia | split; assumption]. }
    destruct (no_valid_column b2) eqn:Hnv2.
    { exists Draw, (Datatypes.S (Datatypes.S moves)), b2, rs2.
      split; [reflexivity|]. split; [assumption|]. split; [assumption|].
      split; [lia|]. split; [assumption|]. split; [assumption|].
      apply no_valid_column_full; auto. now apply no_valid_column_nil. }
    assert (Ht2 : is_terminal b2 = false) by (apply is_terminal_false_iff; auto).
    destruct (IH b2 (Datatypes.S (Datatypes.S moves)) rs2 Hwf2 Hg2 Ht2 ltac:(lia))
      as (v & n & b' & rs' & E & Hwf' & Hg' & Hn & Hv).
    exists v, n, b', rs'. split; [exact E|]. split; [exact Hwf'|].
    split; [exact Hg'|]. split; [lia | exact Hv].
Qed.

(** With a second depth other than 0, [ai_vs_ai] raises nothing and ends,
    whatever the first depth: after at most 42 moves it stops on a 6x7
    board with gravity where the announced winner has a run and the other
    side has none; a draw is announced only on the full board, after 42
    moves, with no run at all. *)
Theorem ai_vs_ai_finishes (rs : S) :
  exists v n b rs',
    ai_vs_ai random_choice depth_1 depth_2 rs = Finished v n b rs'
    /\ wf_board b /\ gravity b
    /\ (n + count_empty b = 42)%nat
    /\ verdict_ok v b
    /\ is_terminal b = true
    /\ (v = Draw -> n = 42%nat).
Proof.
  unfold ai_vs_ai.
  destruct (ai_vs_ai_loop_finishes (ROWS * COLS) create_board 0 rs
              create_board_wf gravity_create_board eq_refl
              ltac:(vm_compute; lia))
    as (v & n & b & rs' & E & Hwf & Hg & Hn & Hv).
  change (n + count_empty b = 42)%nat in Hn.
  exists v, n, b, rs'. split; [exact E|]. split; [exact Hwf|].
  split; [exact Hg|]. split; [exact Hn|]. split; [exact Hv|]. split.
  - unfold is_terminal.
    destruct v; simpl in Hv.
    + destruct Hv as [-> _]; reflexivity.
    + destruct Hv as [-> _]; apply orb_true_iff; left; apply orb_true_r.
    + destruct Hv as (_ & _ & H0). now apply full_board_terminal.
  - intros ->. simpl in Hv. destruct Hv as (_ & _ & H0). lia.
Qed.

End BattleRuns.

Lemma ai_vs_ai_finishes_witness :
  2 <> 0
  /\ exists v n b rs',
       ai_vs_ai counter_choice 1 2 0%nat = Finished v n b rs'
       /\ wf_board b /\ gravity b
       /\ (n + count_empty b = 42)%nat
       /\ verdict_ok v b
       /\ is_terminal b = true
       /\ (v = Draw -> n = 42%nat).
Proof.
  split; [discriminate|].
  apply (ai_vs_ai_finishes counter_choice 1 2 ltac:(discriminate) 0%nat).
Defined.

Section BattleIndependence.

Context {S1 S2 : Type}.
Variable choice1 : S1 -> list nat -> nat * S1.
Variable choice2 : S2 -> list nat -> nat * S2.

Lemma minimax_indep (b : board) (depth : Z) (alpha beta : ext) (mx : bool)
    (rs1 : S1) (rs2 : S2) :
  outcome (minimax choice1 b depth alpha beta mx rs1)
  = outcome (minimax choice2 b depth alpha beta mx rs2).
Proof. unfold minimax; apply minimax_fuel_indep. Qed.

Lemma ai1_loop_indep (b : board) (depth_1 : Z) (cols : list nat) :
  forall best_col best_score rs1 rs2,
    outcome (ai1_loop choice1 b depth_1 cols best_col best_score rs1)
    = outcome (ai1_loop choice2 b depth_1 cols best_col best_score rs2).
Proof.
  induction cols as [|c rest IH]; intros best_col best_score rs1 rs2; simpl;
    [reflexivity|].
  destruct (drop_piece b c PLAYER) as [[nb|]| |]; try reflexivity.
  pose proof (minimax_indep nb (depth_1 - 1) NegInf PosInf true rs1 rs2) as H.
  destruct (minimax choice1 nb (depth_1 - 1) NegInf PosInf true rs1)
    as [[[c1 s1] r1]| |],
           (minimax choice2 nb (depth_1 - 1) NegInf PosInf true rs2)
    as [[[c2 s2] r2]| |];
    simpl in H; try discriminate; try (inversion H; subst; reflexivity).
  inversion H; subst.
  destruct (ext_gtb (ext_neg s2) best_score); apply IH.
Qed.

(** The battle does not depend on the random source: the calls of
    [random.choice] in the searches never reach a move, so two runs with the
    same depths end with the same verdict, move count and board. *)
Theorem ai_vs_ai_deterministic (depth_1 depth_2 : Z) (rs1 : S1) (rs2 : S2) :
  battle_outcome (ai_vs_ai choice1 depth_1 depth_2 rs1)
  = battle_outcome (ai_vs_ai choice2 depth_1 depth_2 rs2).
Proof.
  unfold ai_vs_ai.
  generalize (ROWS * COLS)%nat create_board O rs1 rs2.
  intros fuel; induction fuel as [|fuel IH]; intros b moves r1 r2; simpl;
    [reflexivity|].
  unfold ai1_select.
  pose proof (ai1_loop_indep b depth_1 (get_valid_columns b) None NegInf r1 r2)
    as H1.
  destruct (ai1_loop choice1 b depth_1 (get_valid_columns b) None NegInf r1)
    as [[[c1 s1] r1']| |],
           (ai1_loop choice2 b depth_1 (get_valid_columns b) None NegInf r2)
    as [[[c2 s2] r2']| |];
    simpl in H1; try discriminate; try reflexivity.
  inversion H1; subst.
  destruct c2 as [best_col|]; [|reflexivity].
  destruct (drop_piece b best_col PLAYER) as [[b1|]| |]; try reflexivity.
  destruct (check_win b1 PLAYER); [reflexivity|].
  destruct (no_valid_column b1); [reflexivity|].
  unfold ai_move.
  pose proof (minimax_indep b1 depth_2 NegInf PosInf true r1' r2') as H2.
  destruct (minimax choice1 b1 depth_2 NegInf PosInf true r1')
    as [[[c3 s3] r3]| |],
           (minimax choice2 b1 depth_2 NegInf PosInf true r2')
    as [[[c4 s4] r4]| |];
    simpl in H2; try discriminate; try reflexivity.
  inversion H2; subst.
  destruct c4 as [ai_col|]; [|reflexivity].
  destruct (drop_piece b1 ai_col AI) as [[b2|]| |]; try reflexivity.
  destruct (check_win b2 AI); [reflexivity|].
  destruct (no_valid_column b2); [reflexivity|].
  apply IH.
Qed.

End BattleIndependence.

(** With a second depth of 0 the battle always ends in an exception: the
    search of the second AI stops at its horizon at once and returns no
    column, and [drop_piece] is called with the column [None]. *)
Theorem ai_vs_ai_second_depth_0 {S : Type}
    (random_choice : S -> list nat -> nat * S) (depth_1 : Z) (rs : S) :
  ai_vs_ai random_choice depth_1 0 rs = Crashed.
Proof.
  unfold ai_vs_ai.
  change (ROWS * COLS)%nat with (Datatypes.S 41). simpl ai_vs_ai_loop.
  unfold ai1_select.
  destruct (ai1_loop_least random_choice create_board depth_1
              (get_valid_columns create_board) create_board_wf
              (fun c H => H) (get_valid_columns_sorted create_board)
              [] None NegInf rs
              ltac:(intros ? ? []) ltac:(left; auto) ltac:(discriminate))
    as (c & z & rs1 & -> & Hin & _).
  simpl app in Hin.
  assert (Hc : In c [0; 1; 2; 3; 4; 5; 6]%nat) by exact Hin.
  simpl in Hc.
  destruct Hc as [<-|[<-|[<-|[<-|[<-|[<-|[<-|[]]]]]]]]; reflexivity.
Qed.

(* ================================================================== *)
(** * The game against the player *)

Lemma read_column_legal (inputs : list (option Z)) (valid : list nat)
    (col : nat) (rest : list (option Z)) :
  read_column inputs valid = Some (col, rest) -> In col valid.
Proof.
  induction inputs as [|raw t IH]; simpl; [discriminate|].
  destruct raw as [n|]; [|exact IH].
  destruct ((0 <=? n - 1) && existsb (Nat.eqb (Z.to_nat (n - 1))) valid) eqn:E;
    [|exact IH].
  intros H; inversion H; subst.
  apply andb_true_iff in E as [_ E].
  apply existsb_exists in E as (x & Hx & Heq).
  apply Nat.eqb_eq in Heq. now subst.
Qed.

Lemma verdict_ok_terminal (v : verdict) (b : board) :
  wf_board b -> verdict_ok v b -> is_terminal b = true.
Proof.
  intros Hwf Hv; unfold is_terminal. destruct v; simpl in Hv.
  - destruct Hv as [-> _]; reflexivity.
  - destruct Hv as [-> _]; apply orb_true_iff; left; apply orb_true_r.
  - destruct Hv as (_ & _ & H0). now apply full_board_terminal.
Qed.

Section GameFacts.

Context {S : Type}.
Variable random_choice : S -> list nat -> nat * S.
Variable random_random : S -> Q * S.
Hypothesis choice_in :
  forall rs l, l <> [] -> In (fst (random_choice rs l)) l.

Lemma ai_turn_column_legal (diff : difficulty) (b : board) (rs : S) :
  wf_board b -> is_terminal b = false -> diff_depth diff <> 0 ->
  exists col rs',
    ai_turn_column random_choice random_random diff b rs = Ok (Some col, rs')
    /\ In col (get_valid_columns b).
Proof.
  intros Hwf Ht Hd.
  assert (Hsearch : forall r,
            exists col r',
              match ai_move random_choice b (diff_depth diff) r with
              | Ok (ai_col, _, r'') => Ok (ai_col, r'')
              | Raise e => Raise e
              | OutOfFuel => OutOfFuel
              end = Ok (Some col, r')
              /\ In col (get_valid_columns b)).
  { intros r. unfold ai_move, minimax.
    destruct (minimax_fuel_total _ random_choice (Datatypes.S (count_empty b)) b
                (diff_depth diff) NegInf PosInf true r Hwf (Nat.lt_succ_diag_r _))
      as (c & v & r' & E).
    destruct (minimax_fuel_column _ _ _ _ _ _ _ _ _ _ _ Ht Hd E) as (col & Hin & ->).
    rewrite E. eauto. }
  unfold ai_turn_column.
  destruct (negb (Qle_bool (diff_blunder diff) 0)); [|apply Hsearch].
  destruct (negb (Qle_bool (diff_blunder diff) (fst (random_random rs))));
    [|apply Hsearch].
  pose proof (is_terminal_false_cols b Ht) as Hne.
  pose proof (choice_in (snd (random_random rs)) (get_valid_columns b) Hne) as Hin.
  destruct (get_valid_columns b) as [|c l] eqn:Ev; [congruence|].
  eauto.
Qed.

Lemma play_loop_ok (diff : difficulty) (fuel : nat) :
  diff_depth diff <> 0 ->
  forall b move_count inputs rs,
    wf_board b -> gravity b -> is_terminal b = false ->
    (count_empty b <= 2 * fuel)%nat ->
    (move_count + count_empty b = 42)%nat ->
    game_ok (play_loop random_choice random_random fuel diff b move_count inputs rs).
Proof.
  intros Hd. induction fuel as [|fuel IH]; intros b moves inputs rs Hwf Hg Ht Hf Hm.
  - assert (H0 : count_empty b = 0%nat) by lia.
    rewrite (full_board_terminal b Hwf H0) in Ht; discriminate.
  - pose proof (proj1 (is_terminal_false_iff b) Ht) as (HwP & HwA & Hnv).
    simpl.
    destruct (read_column inputs (get_valid_columns b)) as [[col rest]|] eqn:Er;
      [|simpl; auto].
    pose proof (read_column_legal _ _ _ _ Er) as Hin.
    destruct (drop_piece_valid b col PLAYER Hwf Hin PLAYER_not_EMPTY)
      as (b1 & Hd1 & Hwf1 & Hc1).
    rewrite Hd1.
    pose proof (gravity_drop_piece b col PLAYER b1 Hg Hd1) as Hg1.
    assert (HwA1 : check_win b1 AI = false).
    { rewrite (check_win_other_side b col PLAYER b1 AI Hwf); auto; discriminate. }
    destruct (check_win b1 PLAYER) eqn:HwP1.
    { assert (Hv : verdict_ok RedWins b1) by (split; assumption).
      simpl. repeat (split; [first [assumption | lia]|]).
      now apply (verdict_ok_terminal RedWins). }
    destruct (no_valid_column b1) eqn:Hnv1.
    { assert (Hv : verdict_ok Draw b1).
      { split; [assumption|]. split; [assumption|].
        apply no_valid_column_full; auto. now apply no_valid_column_nil. }
      simpl. repeat (split; [first [assumption | lia]|]).
      now apply (verdict_ok_terminal Draw). }
    assert (Ht1 : is_terminal b1 = false) by (apply is_terminal_false_iff; auto).
    destruct (ai_turn_column_legal diff b1 rs Hwf1 Ht1 Hd)
      as (col2 & rs1 & -> & Hin2).
    destruct (drop_piece_valid b1 col2 AI Hwf1 Hin2 AI_not_EMPTY)
      as (b2 & Hd2 & Hwf2 & Hc2).
    rewrite Hd2.
    pose proof (gravity_drop_piece b1 col2 AI b2 Hg1 Hd2) as Hg2.
    assert (HwP2 : check_win b2 PLAYER = false).
    { rewrite (check_win_other_side b1 col2 AI b2 PLAYER Hwf1); auto; discriminate. }
    destruct (check_win b2 AI) eqn:HwA2.
    { assert (Hv : verdict_ok YellowWins b2) by (split; assumption).
      simpl. repeat (split; [first [assumption | lia]|]).
      now apply (verdict_ok_terminal YellowWins). }
    destruct (no_valid_column b2) eqn:Hnv2.
    { assert (Hv : verdict_ok Draw b2).
      { split; [assumption|]. split; [assumption|].
        apply no_valid_column_full; auto. now apply no_valid_column_nil. }
      simpl. repeat (split; [first [assumption | lia]|]).
      now apply (verdict_ok_terminal Draw). }
    assert (Ht2 : is_terminal b2 = false) by (apply is_terminal_false_iff; auto).
    apply IH; auto; lia.
Qed.

(** A game raises nothing, for every difficulty of the table (and every
    depth other than 0), every input and every random source whose
    [random.choice] returns an element of its list.  It ends on a 6x7 board
    with gravity where the announced winner has a run and the other side has
    none, a draw being announced on the full board only; or the input runs
    out on an open position.  The moves made and the EMPTY cells always add
    up to 42. *)
Theorem play_game_safe (diff : difficulty) (inputs : list (option Z)) (rs : S) :
  diff_depth diff <> 0 \/ (exists k, In (k, diff) DIFFICULTIES) ->
  game_ok (play_game random_choice random_random diff inputs rs).
Proof.
  intros Hdiff.
  assert (Hd : diff_depth diff <> 0).
  { destruct Hdiff as [H|(k & Hk)]; [exact H|].
    simpl in Hk.
    destruct Hk as [Hk|[Hk|[Hk|[]]]]; inversion Hk; subst; simpl; discriminate. }
  unfold play_game.
  apply (play_loop_ok diff (ROWS * COLS) Hd create_board 0 inputs rs
           create_board_wf gravity_create_board eq_refl).
  - vm_compute; lia.
  - reflexivity.
Qed.

End GameFacts.

Lemma counter_choice_in (rs : nat) (l : list nat) :
  l <> [] -> In (fst (counter_choice rs l)) l.
Proof.
  intros Hne; unfold counter_choice; simpl. apply nth_In.
  apply Nat.mod_upper_bound. destruct l; [congruence | discriminate].
Qed.

Lemma play_game_safe_witness :
  (forall rs l, l <> [] -> In (fst (counter_choice rs l)) l)
  /\ (diff_depth {| diff_depth := 2; diff_blunder := 1 # 4 |} <> 0
      \/ exists k, In (k, {| diff_depth := 2; diff_blunder := 1 # 4 |}) DIFFICULTIES)
  /\ game_ok (play_game counter_choice counter_random
                {| diff_depth := 2; diff_blunder := 1 # 4 |}
                [Some 4; None; Some 9; Some 4] 0%nat).
Proof.
  split; [exact counter_choice_in|].
  split; [left; discriminate|].
  apply (play_game_safe counter_choice counter_random counter_choice_in
           {| diff_depth := 2; diff_blunder := 1 # 4 |}
           [Some 4; None; Some 9; Some 4] 0%nat).
  left; discriminate.
Defined.

Section GameIndependence.

Context {S1 S2 : Type}.
Variable choice1 : S1 -> list nat -> nat * S1.
Variable choice2 : S2 -> list nat -> nat * S2.
Variable random1 : S1 -> Q * S1.
Variable random2 : S2 -> Q * S2.


End GameIndependence.


(* ================================================================== *)
(** * Blocking a threat *)

Section BestOfMin.

Variable child : nat -> option ext.



End BestOfMin.







